(** * Skotch physics core: rigid-body integration and sphere collisions

    A shallow embedding of the physics module of Skotch
    ([SphereCollider], [SimplePhysicsBody], [attachPhysics], [stepPhysics])
    together with the properties its specification states.

    JavaScript numbers are IEEE 754 binary64 values.  The embedding is
    written once over an interface of number operations ([Number]) and is
    read at two instances:

    - [binary64]: Rocq's primitive floats, which are exactly the binary64
      numbers the program runs on (rounding, signed zeros, infinities and
      NaN included).  This instance is the program.
    - [exact]: the real numbers, i.e. the same algorithm with every
      operation carried out without rounding.  It is used only to state
      what holds of the algorithm up to rounding.

    Objects are modelled twice.  By value: every mesh of the list owns
    its position, its body and its collider, and no two list entries share
    an object; this is the model of everything that is about one mesh or
    one pair.  On a heap ([InPlace]): vector, body, collider and mesh
    objects are named by references, [integrate] writes in place and a
    list may hold shared objects; this is the model of what a step leaves
    alone and of what sharing changes.

    Beside the physics module the development covers, from the library's
    main module, [Vec3.normalize] and [Vec3.cross], the mesh list of
    [Scene] and the vertex and index generation of
    [GeometryBuilder.sphere] and [GeometryBuilder.torus]. *)

From Stdlib Require Import Floats Reals Lra Bool ZArith.
From stdpp Require Import base list.

(** ** Numbers *)

Class Number (F : Type) : Type := {
  nadd : F -> F -> F;
  nsub : F -> F -> F;
  nmul : F -> F -> F;
  ndiv : F -> F -> F;
  nneg : F -> F;                (* unary minus *)
  nsqrt : F -> F;               (* Math.sqrt *)
  nlt : F -> F -> bool;         (* a < b *)
  nle : F -> F -> bool;         (* a <= b *)
  nseq : F -> F -> bool;        (* a === b *)
  n0 : F;                       (* 0 *)
  n1 : F;                       (* 1 *)
  n0_5 : F;                     (* 0.5 *)
  n0_001 : F                    (* 0.001 *)
}.

Declare Scope num_scope.
Delimit Scope num_scope with num.
Infix "+" := nadd : num_scope.
Infix "-" := nsub : num_scope.
Infix "*" := nmul : num_scope.
Infix "/" := ndiv : num_scope.
Notation "- a" := (nneg a) : num_scope.
Infix "<?" := nlt : num_scope.
Infix "<=?" := nle : num_scope.
Infix "===" := nseq (at level 70, no associativity) : num_scope.

(** The program's numbers.  The literal 0.001 is not a binary64 value; it
    denotes the nearest one, written here in hexadecimal. *)
#[export] Instance binary64 : Number float := {
  nadd := PrimFloat.add;
  nsub := PrimFloat.sub;
  nmul := PrimFloat.mul;
  ndiv := PrimFloat.div;
  nneg := PrimFloat.opp;
  nsqrt := PrimFloat.sqrt;
  nlt := PrimFloat.ltb;
  nle := PrimFloat.leb;
  nseq := PrimFloat.eqb;
  n0 := 0%float;
  n1 := 1%float;
  n0_5 := 0.5%float;
  n0_001 := 0x1.0624dd2f1a9fcp-10%float
}.

(** The same operations without rounding. *)
#[export] Instance exact : Number R := {
  nadd := Rplus;
  nsub := Rminus;
  nmul := Rmult;
  ndiv := Rdiv;
  nneg := Ropp;
  nsqrt := R_sqrt.sqrt;
  nlt := fun a b => if Rlt_dec a b then true else false;
  nle := fun a b => if Rle_dec a b then true else false;
  nseq := fun a b => if Req_dec_T a b then true else false;
  n0 := 0%R;
  n1 := 1%R;
  n0_5 := (1 / 2)%R;
  n0_001 := (1 / 1000)%R
}.

(** ** Data model *)

(** [type VecLike = { x: number; y: number; z: number }] *)
Record VecLike {F : Type} : Type := mkVec { x : F; y : F; z : F }.
Arguments VecLike F : clear implicits.
Arguments mkVec {F} _ _ _.

(** [class SphereCollider] *)
Record SphereCollider {F : Type} : Type := mkCollider {
  radius : F;
  offset : VecLike F
}.
Arguments SphereCollider F : clear implicits.
Arguments mkCollider {F} _ _.

(** [class SimplePhysicsBody] *)
Record SimplePhysicsBody {F : Type} : Type := mkBody {
  velocity : VecLike F;
  mass : F;
  accumulatedForce : VecLike F
}.
Arguments SimplePhysicsBody F : clear implicits.
Arguments mkBody {F} _ _ _.

(** The object stored by [attachPhysics] in [mesh.userData.physics]:
    [{ body, collider }], either of which may be missing. *)
Record Physics {F : Type} : Type := mkPhysics {
  body : option (SimplePhysicsBody F);
  collider : option (SphereCollider F)
}.
Arguments Physics F : clear implicits.
Arguments mkPhysics {F} _ _.

(** What the physics module reads and writes of a mesh:
    [position] is [mesh.transform.position], [physics] is
    [mesh.userData.physics] ([None] when nothing is attached). *)
Record Mesh {F : Type} : Type := mkMesh {
  position : VecLike F;
  physics : option (Physics F)
}.
Arguments Mesh F : clear implicits.
Arguments mkMesh {F} _ _.

(** ** The program *)

Section Program.
Context {F : Type} `{Number F}.
Local Open Scope num_scope.

(** JavaScript's truth value of a number: false for [0], [-0] and [NaN]
    (the only number with [a === a] false). *)
Definition truthy (a : F) : bool := (a === a) && negb (a === n0).

(** [a || b] on numbers. *)
Definition orElse (a b : F) : F := if truthy a then a else b.

Definition add (a b : VecLike F) : VecLike F :=
  {| x := x a + x b; y := y a + y b; z := z a + z b |}.

Definition sub (a b : VecLike F) : VecLike F :=
  {| x := x a - x b; y := y a - y b; z := z a - z b |}.

Definition mulScalar (a : VecLike F) (s : F) : VecLike F :=
  {| x := x a * s; y := y a * s; z := z a * s |}.

Definition length (v : VecLike F) : F :=
  nsqrt (x v * x v + y v * y v + z v * z v).

(** The literal [{ x: 0, y: 0, z: 0 }]. *)
Definition zeroVec : VecLike F := {| x := n0; y := n0; z := n0 |}.

(** [new SimplePhysicsBody(mass)] *)
Definition newBody (m : F) : SimplePhysicsBody F :=
  {| velocity := zeroVec; mass := m; accumulatedForce := zeroVec |}.

(** [new SphereCollider(radius)] with the default offset. *)
Definition newCollider (r : F) : SphereCollider F :=
  {| radius := r; offset := zeroVec |}.

Definition withVelocity (b : SimplePhysicsBody F) (v : VecLike F)
  : SimplePhysicsBody F :=
  {| velocity := v; mass := mass b; accumulatedForce := accumulatedForce b |}.

(** [SimplePhysicsBody.applyForce] *)
Definition applyForce (b : SimplePhysicsBody F) (force : VecLike F)
  : SimplePhysicsBody F :=
  {| velocity := velocity b;
     mass := mass b;
     accumulatedForce := add (accumulatedForce b) force |}.

(** [SimplePhysicsBody.integrate]: the body and the position it is handed
    are updated in place; here both are returned. *)
Definition integrate (b : SimplePhysicsBody F) (position : VecLike F) (dt : F)
  : SimplePhysicsBody F * VecLike F :=
  if dt <=? n0 then (b, position)
  else
    let ax := x (accumulatedForce b) / mass b in
    let ay := y (accumulatedForce b) / mass b in
    let az := z (accumulatedForce b) / mass b in
    let v := {| x := x (velocity b) + ax * dt;
                y := y (velocity b) + ay * dt;
                z := z (velocity b) + az * dt |} in
    let p := {| x := x position + x v * dt;
                y := y position + y v * dt;
                z := z position + z v * dt |} in
    ({| velocity := v; mass := mass b; accumulatedForce := zeroVec |}, p).

(** [attachPhysics(mesh, body, collider?)] *)
Definition attachPhysics (mesh : Mesh F) (b : SimplePhysicsBody F)
    (c : option (SphereCollider F)) : Mesh F :=
  {| position := position mesh;
     physics := Some {| body := Some b; collider := c |} |}.

(** One turn of the first loop of [stepPhysics].  The entry is rebuilt by
    value; the source writes the components of the position and velocity
    objects in place, which is the same as long as the entry shares no
    object with another one ([InPlace.integrateMesh] has the writes). *)
Definition integrateMesh (dt : F) (m : Mesh F) : Mesh F :=
  match physics m with
  | Some p =>
      match body p with
      | Some b =>
          let '(b', pos') := integrate b (position m) dt in
          {| position := pos';
             physics := Some {| body := Some b'; collider := collider p |} |}
      | None => m
      end
  | None => m
  end.

Definition restitution : F := n0_5.

(** The centre-to-centre vector and its length, lines 94-98. *)
Definition centerDelta (A B : Mesh F) (ca cb : SphereCollider F) : VecLike F :=
  let worldA := add (position A) (offset ca) in
  let worldB := add (position B) (offset cb) in
  sub worldB worldA.

(** Lines 100-104: [delta] as it is after the test [dist === 0]. *)
Definition nudged (delta : VecLike F) (dist : F) : VecLike F :=
  if dist === n0 then {| x := n0_001; y := n0_001; z := n0_001 |} else delta.

(** Line 108: [mulScalar(delta, 1 / (dist || 1))]. *)
Definition contactNormal (delta : VecLike F) (dist : F) : VecLike F :=
  mulScalar delta (n1 / orElse dist n1).

(** Line 109. *)
Definition contactCorrection (normal : VecLike F) (penetration : F)
  : VecLike F :=
  mulScalar normal (penetration * n0_5).

(** Lines 121-122. *)
Definition relAlongNormal (normal : VecLike F) (ba bb : SimplePhysicsBody F)
  : F :=
  let rel := sub (velocity bb) (velocity ba) in
  x rel * x normal + y rel * y normal + z rel * z normal.

Definition invMass (b : SimplePhysicsBody F) : F :=
  if n0 <? mass b then n1 / mass b else n0.

(** Lines 118-139: the velocity response for two bodies. *)
Definition resolveVelocity (normal : VecLike F) (ba bb : SimplePhysicsBody F)
  : SimplePhysicsBody F * SimplePhysicsBody F :=
  let ran := relAlongNormal normal ba bb in
  if n0 <? ran then (ba, bb)
  else
    let invMassA := invMass ba in
    let invMassB := invMass bb in
    let j := (- (n1 + restitution) * ran) / (invMassA + invMassB) in
    let impulse := mulScalar normal j in
    (withVelocity ba (sub (velocity ba) (mulScalar impulse invMassA)),
     withVelocity bb (add (velocity bb) (mulScalar impulse invMassB))).

Definition withBody (p : Physics F) (b : SimplePhysicsBody F) : Physics F :=
  {| body := Some b; collider := collider p |}.

(** Lines 94-141: the body of the inner loop for meshes [A] and [B] whose
    attachments [pa], [pb] carry the colliders [ca], [cb]. *)
Definition collidePair (A B : Mesh F) (pa pb : Physics F)
    (ca cb : SphereCollider F) : Mesh F * Mesh F :=
  let delta0 := centerDelta A B ca cb in
  let dist := length delta0 in
  let minDist := radius ca + radius cb in
  let delta := nudged delta0 dist in
  if dist <? minDist then
    let penetration := minDist - dist in
    let normal := contactNormal delta dist in
    let correction := contactCorrection normal penetration in
    let posA := add (position A) (mulScalar correction (- n1)) in
    let posB := add (position B) correction in
    match body pa, body pb with
    | Some ba, Some bb =>
        let '(ba', bb') := resolveVelocity normal ba bb in
        ({| position := posA; physics := Some (withBody pa ba') |},
         {| position := posB; physics := Some (withBody pb bb') |})
    | _, _ =>
        ({| position := posA; physics := Some pa |},
         {| position := posB; physics := Some pb |})
    end
  else (A, B).

(** [m?.userData?.physics] together with its collider, when both exist. *)
Definition colliderOf (m : Mesh F) : option (Physics F * SphereCollider F) :=
  match physics m with
  | Some p =>
      match collider p with
      | Some c => Some (p, c)
      | None => None
      end
  | None => None
  end.

(** One turn of the inner loop, for the indices [i] and [j]. *)
Definition collideAt (i j : nat) (meshes : list (Mesh F)) : list (Mesh F) :=
  match meshes !! i, meshes !! j with
  | Some A, Some B =>
      match colliderOf A, colliderOf B with
      | Some (pa, ca), Some (pb, cb) =>
          let '(A', B') := collidePair A B pa pb ca cb in
          <[j := B']> (<[i := A']> meshes)
      | _, _ => meshes
      end
  | _, _ => meshes
  end.

(** [for (let j = i + 1; j < meshes.length; j++)] *)
Definition innerLoop (i : nat) (meshes : list (Mesh F)) : list (Mesh F) :=
  foldl (fun ms j => collideAt i j ms) meshes
        (seq (S i) (List.length meshes - S i)).

(** One turn of the outer loop. *)
Definition outerStep (meshes : list (Mesh F)) (i : nat) : list (Mesh F) :=
  match meshes !! i ≫= colliderOf with
  | Some _ => innerLoop i meshes
  | None => meshes
  end.

(** Lines 83-143: the second loop nest of [stepPhysics]. *)
Definition collisionPhase (meshes : list (Mesh F)) : list (Mesh F) :=
  foldl outerStep meshes (seq 0 (List.length meshes)).

(** [stepPhysics(meshes, dt)] *)
Definition stepPhysics (meshes : list (Mesh F)) (dt : F) : list (Mesh F) :=
  collisionPhase (integrateMesh dt <$> meshes).

End Program.

(** ** Vocabulary of the properties *)

Section Vocabulary.
Context {F : Type} `{Number F}.
Local Open Scope num_scope.

(** Several [applyForce] calls in a row. *)
Definition applyForces (b : SimplePhysicsBody F) (forces : list (VecLike F))
  : SimplePhysicsBody F :=
  foldl applyForce b forces.

(** The sum the calls accumulate, in call order. *)
Definition totalForce (forces : list (VecLike F)) : VecLike F :=
  foldl add zeroVec forces.

(** The test of line 106 for two colliders. *)
Definition overlapping (A B : Mesh F) (ca cb : SphereCollider F) : bool :=
  length (centerDelta A B ca cb) <? radius ca + radius cb.

(** [penetration], [normal] and [correction] of lines 107-109 as functions
    of the pair. *)
Definition penetrationOf (A B : Mesh F) (ca cb : SphereCollider F) : F :=
  (radius ca + radius cb) - length (centerDelta A B ca cb).

Definition normalOf (A B : Mesh F) (ca cb : SphereCollider F) : VecLike F :=
  let delta0 := centerDelta A B ca cb in
  contactNormal (nudged delta0 (length delta0)) (length delta0).

Definition correctionOf (A B : Mesh F) (ca cb : SphereCollider F)
  : VecLike F :=
  contactCorrection (normalOf A B ca cb) (penetrationOf A B ca cb).

(** Total linear momentum of two bodies. *)
Definition momentum (ba bb : SimplePhysicsBody F) : VecLike F :=
  add (mulScalar (velocity ba) (mass ba)) (mulScalar (velocity bb) (mass bb)).

(** What [stepPhysics] is claimed never to write. *)
Definition bodyMass (m : Mesh F) : option F :=
  p ← physics m; b ← body p; Some (mass b).

Definition colliderShape (m : Mesh F) : option (SphereCollider F) :=
  p ← physics m; collider p.

Definition frame (m : Mesh F) : option F * option (SphereCollider F) :=
  (bodyMass m, colliderShape m).

(** A mesh placed at [p] with a body of mass [m] and velocity [v] and a
    sphere collider of radius [r] centred on it. *)
Definition spherePhysics (v : VecLike F) (m r : F) : Physics F :=
  {| body := Some (withVelocity (newBody m) v);
     collider := Some (newCollider r) |}.

Definition sphereMesh (p v : VecLike F) (m r : F) : Mesh F :=
  attachPhysics (mkMesh p None) (withVelocity (newBody m) v)
                (Some (newCollider r)).

(** The body attached to a mesh, and the momentum of a pair of meshes
    (defined when both carry a body). *)
Definition bodyOf (m : Mesh F) : option (SimplePhysicsBody F) :=
  p ← physics m; body p.

Definition pairMomentum (A B : Mesh F) : option (VecLike F) :=
  ba ← bodyOf A; bb ← bodyOf B; Some (momentum ba bb).

End Vocabulary.

Local Open Scope float_scope.

(** Equality of numbers up to the sign of zero, with NaN equal to itself
    (JavaScript's SameValueZero). *)
Definition sameValueZero (a b : float) : bool :=
  (a =? b) || (is_nan a && is_nan b).

Definition sameVec (u v : VecLike float) : bool :=
  sameValueZero (x u) (x v) && sameValueZero (y u) (y v)
  && sameValueZero (z u) (z v).

Definition nanVec : VecLike float := mkVec nan nan nan.

Definition origin : VecLike float := mkVec 0 0 0.

(** The geometry of the specification's concrete scenarios: two unit
    spheres of mass 1, [A] at the origin and at rest, [B] at (1.5, 0, 0)
    with velocity [vb]. *)
Definition unitCollider : SphereCollider float := newCollider 1.
Definition scenarioA : Mesh float := sphereMesh origin origin 1 1.
Definition scenarioB (vb : VecLike float) : Mesh float :=
  sphereMesh (mkVec 1.5 0 0) vb 1 1.

(** Two unit spheres with the same centre. *)
Definition coincident : Mesh float := sphereMesh origin origin 1 1.

(** A closing pair of unequal masses: [A] (mass 2) moves towards [B]
    (mass 5, at rest). *)
Definition heavyA : Mesh float := sphereMesh origin (mkVec 1 0 0) 2 1.
Definition heavyB : Mesh float := sphereMesh (mkVec 1.5 0 0) origin 5 1.

(** Two bodies of mass 0 (immovable), overlapping and at rest. *)
Definition immovableA : Mesh float := sphereMesh origin origin 0 1.
Definition immovableB : Mesh float := sphereMesh (mkVec 1.5 0 0) origin 0 1.

(** What the specification states of a body of mass [m] at rest that
    receives [forces], is integrated over [dt] from the position [p], then
    receives the zero force and is integrated over [dt2]. *)
Definition forceResponse (forces : list (VecLike float)) (m dt dt2 : float)
    (p : VecLike float) : Prop :=
  let Fv := totalForce forces in
  let first := integrate (applyForces (newBody m) forces) p dt in
  let second := integrate (applyForce (fst first) zeroVec) (snd first) dt2 in
  sameVec (velocity (fst first))
          (mkVec (x Fv / m * dt) (y Fv / m * dt) (z Fv / m * dt)) = true /\
  snd first = add p (mulScalar (velocity (fst first)) dt) /\
  accumulatedForce (fst first) = zeroVec /\
  velocity (fst second) = velocity (fst first).

(** The overlapping scenario again, read over the reals, with masses 2
    and 5. *)
Local Close Scope float_scope.

Definition exactA : Mesh R :=
  (sphereMesh (mkVec 0 0 0) (mkVec 1 0 0) 2 1)%R.
Definition exactB : Mesh R :=
  (sphereMesh (mkVec (3 / 2) 0 0) (mkVec 0 0 0) 5 1)%R.

(** ** More of the library *)

Section MoreProgram.
Context {F : Type} `{Number F}.
Local Open Scope num_scope.

(** [impulse] of lines 127-131 as a function of the normal and the two
    bodies. *)
Definition impulseOf (normal : VecLike F) (ba bb : SimplePhysicsBody F)
  : VecLike F :=
  mulScalar normal
    ((- (n1 + restitution) * relAlongNormal normal ba bb)
     / (invMass ba + invMass bb)).

(** The dot product, written out as the program writes it. *)
Definition dot (u v : VecLike F) : F :=
  x u * x v + y u * y v + z u * z v.

(** [Vec3.normalize] of main.ts; [new Vec3()] is the zero vector.
    [Vec3.add], [Vec3.subtract] and [Vec3.multiply] compute what [add],
    [sub] and [mulScalar] compute. *)
Definition Vec3_normalize (v : VecLike F) : VecLike F :=
  let len := nsqrt (x v * x v + y v * y v + z v * z v) in
  if n0 <? len
  then {| x := x v / len; y := y v / len; z := z v / len |}
  else zeroVec.

(** [Vec3.cross] *)
Definition Vec3_cross (u v : VecLike F) : VecLike F :=
  {| x := y u * z v - z u * y v;
     y := z u * x v - x u * z v;
     z := x u * y v - y u * x v |}.

End MoreProgram.

(** [Scene.add] and [Scene.remove] of main.ts, on the scene's mesh list.
    Meshes are objects compared by identity ([indexOf] uses [===]); [M]
    stands for their references. *)
Section Scene.
Context {M : Type} `{EqDecision M}.

(** [Array.prototype.indexOf]: the first index holding [mesh], or -1. *)
Fixpoint indexOfFrom (i : nat) (meshes : list M) (mesh : M) : Z :=
  match meshes with
  | [] => (-1)%Z
  | m :: rest =>
      if decide (m = mesh) then Z.of_nat i
      else indexOfFrom (S i) rest mesh
  end.

Definition indexOf (meshes : list M) (mesh : M) : Z :=
  indexOfFrom 0 meshes mesh.

(** [this.meshes.push(mesh)] *)
Definition Scene_add (meshes : list M) (mesh : M) : list M :=
  meshes ++ [mesh].

(** [if (index > -1) this.meshes.splice(index, 1)] *)
Definition Scene_remove (meshes : list M) (mesh : M) : list M :=
  let index := indexOf meshes mesh in
  if (-1 <? index)%Z then delete (Z.to_nat index) meshes else meshes.

End Scene.

(** [GeometryBuilder.sphere] and [GeometryBuilder.torus] of main.ts.
    [Math.sin], [Math.cos] and [Math.PI] are taken as given; [segments] is
    a non-negative integer, and so are the indices. *)
Record Geometry : Type := mkGeometry {
  vertices : list float;
  indices : list nat;
  normals : list float;
  colors : list float
}.

Definition natToFloat (n : nat) : float :=
  PrimFloat.of_uint63 (Uint63.of_Z (Z.of_nat n)).

Section GeometryBuilder.
Variables (Math_sin Math_cos : float -> float) (Math_PI : float).
Local Open Scope float_scope.

(** The two nested loops of either builder, collecting what one turn
    pushes. *)
Definition grid {A : Type} (rows cols : nat) (turn : nat -> nat -> list A)
  : list A :=
  flat_map (fun i => flat_map (fun j => turn i j) (seq 0 cols)) (seq 0 rows).

Definition sphere (radius : float) (segments : nat) (color : list float)
  : Geometry :=
  let point (lat lon : nat) : VecLike float :=
    let theta := (natToFloat lat * Math_PI) / natToFloat segments in
    let sinTheta := Math_sin theta in
    let cosTheta := Math_cos theta in
    let phi := (natToFloat lon * 2 * Math_PI) / natToFloat segments in
    let sinPhi := Math_sin phi in
    let cosPhi := Math_cos phi in
    mkVec (cosPhi * sinTheta) cosTheta (sinPhi * sinTheta) in
  {| vertices :=
       grid (S segments) (S segments) (fun lat lon =>
         let p := point lat lon in
         [radius * x p; radius * y p; radius * z p]);
     normals :=
       grid (S segments) (S segments) (fun lat lon =>
         let p := point lat lon in [x p; y p; z p]);
     colors := grid (S segments) (S segments) (fun _ _ => color);
     indices :=
       grid segments segments (fun lat lon =>
         let first := (lat * (segments + 1) + lon)%nat in
         let second := (first + segments + 1)%nat in
         [first; second; (first + 1)%nat;
          second; (second + 1)%nat; (first + 1)%nat]) |}.

Definition torus (majorRadius minorRadius : float) (segments : nat)
    (color : list float) : Geometry :=
  let angle (k : nat) : float :=
    (natToFloat k * 2 * Math_PI) / natToFloat segments in
  {| vertices :=
       grid (S segments) (S segments) (fun i j =>
         let u := angle i in
         let v := angle j in
         [(majorRadius + minorRadius * Math_cos v) * Math_cos u;
          minorRadius * Math_sin v;
          (majorRadius + minorRadius * Math_cos v) * Math_sin u]);
     normals :=
       grid (S segments) (S segments) (fun i j =>
         let u := angle i in
         let v := angle j in
         [Math_cos v * Math_cos u; Math_sin v; Math_cos v * Math_sin u]);
     colors := grid (S segments) (S segments) (fun _ _ => color);
     indices :=
       grid segments segments (fun i j =>
         let a := (i * (segments + 1) + j)%nat in
         let b := (a + segments + 1)%nat in
         [a; b; (a + 1)%nat; b; (b + 1)%nat; (a + 1)%nat]) |}.

End GeometryBuilder.

Section NonFinite.
Local Open Scope float_scope.

(** NaN or an infinity. *)
Definition unbounded (a : float) : Prop :=
  Prim2SF a = S754_nan \/ exists s, Prim2SF a = S754_infinity s.

(** Every component is finite; no component is. *)
Definition finiteVec (v : VecLike float) : bool :=
  is_finite (x v) && is_finite (y v) && is_finite (z v).

Definition noFiniteComponent (v : VecLike float) : bool :=
  negb (is_finite (x v)) && negb (is_finite (y v))
  && negb (is_finite (z v)).

End NonFinite.

(** ** The physics step on shared objects

    [integrate] writes the components of the velocity object and of the
    position object it is handed in place, and a mesh list may list a
    mesh twice or hold meshes that share a position, a body or a vector
    with one another or with a collider's offset.  Here objects live in a
    heap and are named by references.  The [{ body, collider }] object and
    the transform of a mesh are never written apart from the transform's
    [position] field, which is kept in the mesh object. *)

Module InPlace.

(** References are positions in the heap. *)
Abbreviation ref := nat (only parsing).

(** [class SimplePhysicsBody]: [velocity] and [accumulatedForce] hold
    references to vector objects. *)
Record SimplePhysicsBody {F : Type} : Type := mkBody {
  velocity : ref;
  mass : F;
  accumulatedForce : ref
}.
Arguments SimplePhysicsBody F : clear implicits.
Arguments mkBody {F} _ _ _.

(** [class SphereCollider] *)
Record SphereCollider {F : Type} : Type := mkCollider {
  radius : F;
  offset : ref
}.
Arguments SphereCollider F : clear implicits.
Arguments mkCollider {F} _ _.

(** [mesh.userData.physics]: references to a body and to a collider. *)
Record Physics : Type := mkPhysics {
  body : option ref;
  collider : option ref
}.

(** A mesh object: [position] is the reference held by
    [mesh.transform.position]. *)
Record Mesh : Type := mkMesh {
  position : ref;
  physics : option Physics
}.

Record Heap {F : Type} : Type := mkHeap {
  vectors : list (VecLike F);
  bodies : list (SimplePhysicsBody F);
  colliders : list (SphereCollider F);
  meshObjects : list Mesh
}.
Arguments Heap F : clear implicits.
Arguments mkHeap {F} _ _ _ _.

Section HeapProgram.
Context {F : Type} `{Number F}.
Local Open Scope num_scope.

(** Reading and writing a vector object; a new object gets the next free
    reference.  In a heap built by a program every reference resolves;
    a reference that does not reads as the zero vector and is written to
    no effect. *)
Definition read (h : Heap F) (r : ref) : VecLike F :=
  default zeroVec (vectors h !! r).

Definition write (h : Heap F) (r : ref) (v : VecLike F) : Heap F :=
  {| vectors := <[r := v]> (vectors h);
     bodies := bodies h;
     colliders := colliders h;
     meshObjects := meshObjects h |}.

Definition alloc (h : Heap F) (v : VecLike F) : ref * Heap F :=
  (List.length (vectors h),
   {| vectors := vectors h ++ [v];
      bodies := bodies h;
      colliders := colliders h;
      meshObjects := meshObjects h |}).

(** [o.x = a], [o.y = a], [o.z = a] *)
Definition setX (h : Heap F) (r : ref) (a : F) : Heap F :=
  write h r {| x := a; y := y (read h r); z := z (read h r) |}.

Definition setY (h : Heap F) (r : ref) (a : F) : Heap F :=
  write h r {| x := x (read h r); y := a; z := z (read h r) |}.

Definition setZ (h : Heap F) (r : ref) (a : F) : Heap F :=
  write h r {| x := x (read h r); y := y (read h r); z := a |}.

Definition updateBody (h : Heap F) (b : ref)
    (f : SimplePhysicsBody F -> SimplePhysicsBody F) : Heap F :=
  {| vectors := vectors h;
     bodies := alter f b (bodies h);
     colliders := colliders h;
     meshObjects := meshObjects h |}.

(** [body.accumulatedForce = v] and [body.velocity = v], with [v] a new
    object. *)
Definition assignAccumulatedForce (h : Heap F) (b : ref) (v : VecLike F)
  : Heap F :=
  let '(r, h') := alloc h v in
  updateBody h' b (fun o =>
    {| velocity := velocity o; mass := mass o; accumulatedForce := r |}).

Definition assignVelocity (h : Heap F) (b : ref) (v : VecLike F) : Heap F :=
  let '(r, h') := alloc h v in
  updateBody h' b (fun o =>
    {| velocity := r; mass := mass o;
       accumulatedForce := accumulatedForce o |}).

(** [mesh.transform.position = v], with [v] a new object. *)
Definition assignPosition (h : Heap F) (m : ref) (v : VecLike F) : Heap F :=
  let '(r, h') := alloc h v in
  {| vectors := vectors h';
     bodies := bodies h';
     colliders := colliders h';
     meshObjects :=
       alter (fun o => {| position := r; physics := physics o |}) m
             (meshObjects h') |}.

(** The fields of the objects behind a reference. *)
Definition positionOf (h : Heap F) (m : ref) : ref :=
  from_option position 0%nat (meshObjects h !! m).

Definition velocityOf (h : Heap F) (b : ref) : ref :=
  from_option velocity 0%nat (bodies h !! b).

Definition massOf (h : Heap F) (b : ref) : F :=
  from_option mass n0 (bodies h !! b).

(** [SimplePhysicsBody.integrate] on the body [b], handed the position
    object [position]. *)
Definition integrate (h : Heap F) (b : ref) (position : ref) (dt : F)
  : Heap F :=
  match bodies h !! b with
  | None => h
  | Some this =>
      if dt <=? n0 then h
      else
        let ax := x (read h (accumulatedForce this)) / mass this in
        let ay := y (read h (accumulatedForce this)) / mass this in
        let az := z (read h (accumulatedForce this)) / mass this in
        let v := velocity this in
        let h := setX h v (x (read h v) + ax * dt) in
        let h := setY h v (y (read h v) + ay * dt) in
        let h := setZ h v (z (read h v) + az * dt) in
        let h := setX h position (x (read h position) + x (read h v) * dt) in
        let h := setY h position (y (read h position) + y (read h v) * dt) in
        let h := setZ h position (z (read h position) + z (read h v) * dt) in
        assignAccumulatedForce h b zeroVec
  end.

(** One turn of the first loop of [stepPhysics], for the list entry [m]. *)
Definition integrateMesh (dt : F) (h : Heap F) (m : ref) : Heap F :=
  match meshObjects h !! m with
  | Some o =>
      match physics o with
      | Some p =>
          match body p with
          | Some b => integrate h b (position o) dt
          | None => h
          end
      | None => h
      end
  | None => h
  end.

(** Lines 118-139. *)
Definition resolveVelocity (h : Heap F) (normal : VecLike F) (ba bb : ref)
  : Heap F :=
  let va := read h (velocityOf h ba) in
  let vb := read h (velocityOf h bb) in
  let rel := sub vb va in
  let relAlongNormal :=
    x rel * x normal + y rel * y normal + z rel * z normal in
  if n0 <? relAlongNormal then h
  else
    let invMassA := if n0 <? massOf h ba then n1 / massOf h ba else n0 in
    let invMassB := if n0 <? massOf h bb then n1 / massOf h bb else n0 in
    let j := (- (n1 + restitution) * relAlongNormal)
             / (invMassA + invMassB) in
    let impulse := mulScalar normal j in
    let h := assignVelocity h ba
               (sub (read h (velocityOf h ba)) (mulScalar impulse invMassA)) in
    assignVelocity h bb
      (add (read h (velocityOf h bb)) (mulScalar impulse invMassB)).

(** Lines 94-141 for the meshes [a] and [b] with attachments [pa], [pb]
    and collider objects [ca], [cb]. *)
Definition collidePair (h : Heap F) (a b : ref) (pa pb : Physics)
    (ca cb : SphereCollider F) : Heap F :=
  let worldA := add (read h (positionOf h a)) (read h (offset ca)) in
  let worldB := add (read h (positionOf h b)) (read h (offset cb)) in
  let delta0 := sub worldB worldA in
  let dist := length delta0 in
  let minDist := radius ca + radius cb in
  let delta := nudged delta0 dist in
  if dist <? minDist then
    let penetration := minDist - dist in
    let normal := contactNormal delta dist in
    let correction := contactCorrection normal penetration in
    let h := assignPosition h a
               (add (read h (positionOf h a)) (mulScalar correction (- n1))) in
    let h := assignPosition h b
               (add (read h (positionOf h b)) correction) in
    match body pa, body pb with
    | Some ba, Some bb => resolveVelocity h normal ba bb
    | _, _ => h
    end
  else h.

(** [m?.userData?.physics] and the collider object it refers to. *)
Definition colliderOf (h : Heap F) (m : ref)
  : option (Physics * SphereCollider F) :=
  o ← meshObjects h !! m;
  p ← physics o;
  c ← collider p;
  co ← colliders h !! c;
  Some (p, co).

(** Lines 89-141: one turn of the inner loop, for the mesh [a] of the
    outer loop with its attachment [pa] and collider object [ca] (collider
    objects are never written, so their fields are read once). *)
Definition collideWith (meshes : list ref) (a : ref) (pa : Physics)
    (ca : SphereCollider F) (h : Heap F) (j : nat) : Heap F :=
  match meshes !! j with
  | Some b =>
      match colliderOf h b with
      | Some (pb, cb) => collidePair h a b pa pb ca cb
      | None => h
      end
  | None => h
  end.

Definition innerLoop (meshes : list ref) (i : nat) (a : ref) (pa : Physics)
    (ca : SphereCollider F) (h : Heap F) : Heap F :=
  foldl (collideWith meshes a pa ca) h
        (seq (S i) (List.length meshes - S i)).

(** Lines 84-142: one turn of the outer loop. *)
Definition outerStep (meshes : list ref) (h : Heap F) (i : nat) : Heap F :=
  match meshes !! i with
  | Some a =>
      match colliderOf h a with
      | Some (pa, ca) => innerLoop meshes i a pa ca h
      | None => h
      end
  | None => h
  end.

Definition collisionPhase (meshes : list ref) (h : Heap F) : Heap F :=
  foldl (outerStep meshes) h (seq 0 (List.length meshes)).

Definition integrationPhase (meshes : list ref) (dt : F) (h : Heap F)
  : Heap F :=
  foldl (integrateMesh dt) h meshes.

(** [stepPhysics(meshes, dt)] *)
Definition stepPhysics (h : Heap F) (meshes : list ref) (dt : F) : Heap F :=
  collisionPhase meshes (integrationPhase meshes dt h).

(** The body a mesh is attached to. *)
Definition bodyOf (h : Heap F) (m : ref) : option ref :=
  o ← meshObjects h !! m; p ← physics o; body p.


(** The vector objects that make up the state of a mesh: its position
    object, its body's velocity and pending force, its collider's
    offset. *)
Definition footprint (h : Heap F) (m : ref) : list ref :=
  match meshObjects h !! m with
  | Some o =>
      position o ::
      match physics o with
      | Some p =>
          match body p ≫= (bodies h !!.) with
          | Some this => [velocity this; accumulatedForce this]
          | None => []
          end ++
          match collider p ≫= (colliders h !!.) with
          | Some co => [offset co]
          | None => []
          end
      | None => []
      end
  | None => []
  end.



End HeapProgram.
End InPlace.


Section SharedScenarios.
Local Open Scope float_scope.



(** The second concrete scenario of the specification, every object its
    own: positions 0 and 1, velocities 2 and 3, pending forces 4 and 5,
    offsets 6 and 7. *)
Definition scenarioHeap : InPlace.Heap float :=
  InPlace.mkHeap
    [mkVec 0 0 0; mkVec 1.5 0 0; mkVec 0 0 0; mkVec (-1) 0 0;
     mkVec 0 0 0; mkVec 0 0 0; mkVec 0 0 0; mkVec 0 0 0]
    [InPlace.mkBody 2%nat 1 4%nat; InPlace.mkBody 3%nat 1 5%nat]
    [InPlace.mkCollider 1 6%nat; InPlace.mkCollider 1 7%nat]
    [InPlace.mkMesh 0%nat
       (Some (InPlace.mkPhysics (Some 0%nat) (Some 0%nat)));
     InPlace.mkMesh 1%nat
       (Some (InPlace.mkPhysics (Some 1%nat) (Some 1%nat)))].

(** Three meshes, the first of them listed twice.  Meshes 0 and 1 are
    the overlapping spheres of the second scenario, and their colliders
    share one offset object (6).  Mesh 2 has no collider: it sits at
    (5,0,0) (object 7), and its body of mass 2 moves at (1,0,0) (object
    8) with a pending force (2,0,0) (object 9). *)
Definition unsharedScene : InPlace.Heap float :=
  InPlace.mkHeap
    [mkVec 0 0 0; mkVec 1.5 0 0; mkVec 0 0 0; mkVec (-1) 0 0;
     mkVec 0 0 0; mkVec 0 0 0; mkVec 0 0 0;
     mkVec 5 0 0; mkVec 1 0 0; mkVec 2 0 0]
    [InPlace.mkBody 2%nat 1 4%nat; InPlace.mkBody 3%nat 1 5%nat;
     InPlace.mkBody 8%nat 2 9%nat]
    [InPlace.mkCollider 1 6%nat; InPlace.mkCollider 1 6%nat]
    [InPlace.mkMesh 0%nat
       (Some (InPlace.mkPhysics (Some 0%nat) (Some 0%nat)));
     InPlace.mkMesh 1%nat
       (Some (InPlace.mkPhysics (Some 1%nat) (Some 1%nat)));
     InPlace.mkMesh 7%nat
       (Some (InPlace.mkPhysics (Some 2%nat) None))].

End SharedScenarios.

Section FrameVocabulary.
Context {F : Type} `{Number F}.

(** The value of the objects of a mesh: the mesh as the by-value model
    has it. *)
Definition snapshotBody (h : InPlace.Heap F) (b : InPlace.ref)
  : option (SimplePhysicsBody F) :=
  this ← InPlace.bodies h !! b;
  Some {| velocity := InPlace.read h (InPlace.velocity this);
          mass := InPlace.mass this;
          accumulatedForce :=
            InPlace.read h (InPlace.accumulatedForce this) |}.

Definition snapshotCollider (h : InPlace.Heap F) (c : InPlace.ref)
  : option (SphereCollider F) :=
  co ← InPlace.colliders h !! c;
  Some {| radius := InPlace.radius co;
          offset := InPlace.read h (InPlace.offset co) |}.

Definition snapshotPhysics (h : InPlace.Heap F) (p : InPlace.Physics)
  : Physics F :=
  {| body := InPlace.body p ≫= snapshotBody h;
     collider := InPlace.collider p ≫= snapshotCollider h |}.

Definition snapshot (h : InPlace.Heap F) (m : InPlace.ref)
  : option (Mesh F) :=
  o ← InPlace.meshObjects h !! m;
  Some {| position := InPlace.read h (InPlace.position o);
          physics := snapshotPhysics h <$> InPlace.physics o |}.



(** [h'] has the objects of the mesh [m] as they are in [h]: its mesh
    object, its body object, the colliders and the vector objects of its
    footprint. *)
Definition kept (m : InPlace.ref) (h h' : InPlace.Heap F) : Prop :=
  InPlace.meshObjects h' !! m = InPlace.meshObjects h !! m /\
  (forall b, InPlace.bodyOf h m = Some b ->
             InPlace.bodies h' !! b = InPlace.bodies h !! b) /\
  InPlace.colliders h' = InPlace.colliders h /\
  Forall (fun r => r < List.length (InPlace.vectors h) /\
                   InPlace.vectors h' !! r = InPlace.vectors h !! r)
         (InPlace.footprint h m).

End FrameVocabulary.

(** ** Properties that hold for every number interpretation *)

Section Generic.
Context {F : Type} `{Number F}.
Local Open Scope num_scope.

Lemma foldl_invariant {A B : Type} (P : A -> Prop) (f : A -> B -> A)
    (l : list B) :
  (forall a b, P a -> P (f a b)) -> forall a, P a -> P (foldl f a l).
Proof.
  intros Hstep. induction l as [|b l IH]; intros a Ha; simpl; auto.
Qed.

Lemma applyForces_accumulates (b : SimplePhysicsBody F)
    (forces : list (VecLike F)) :
  applyForces b forces =
  {| velocity := velocity b; mass := mass b;
     accumulatedForce := foldl add (accumulatedForce b) forces |}.
Proof.
  unfold applyForces. revert b.
  induction forces as [|f fs IH]; intros b; simpl.
  - now destruct b.
  - rewrite IH. reflexivity.
Qed.

(** C2: for every body, position and dt with dt <= 0, integrate returns
    the body (velocity, mass, pending force) and the position unchanged. *)
Theorem integrate_nonpositive_dt_noop (b : SimplePhysicsBody F)
    (position : VecLike F) (dt : F) :
  (dt <=? n0) = true -> integrate b position dt = (b, position).
Proof.
  intros Hdt. unfold integrate. now rewrite Hdt.
Qed.

Lemma withBody_same (p : Physics F) (b : SimplePhysicsBody F) :
  body p = Some b -> withBody p b = p.
Proof.
  destruct p as [pb pc]; simpl; intros ->. reflexivity.
Qed.

Lemma collidePair_overlapping (A B : Mesh F) (pa pb : Physics F)
    (ca cb : SphereCollider F) :
  overlapping A B ca cb = true ->
  collidePair A B pa pb ca cb =
  let normal := normalOf A B ca cb in
  let posA := add (position A) (mulScalar (correctionOf A B ca cb) (- n1)) in
  let posB := add (position B) (correctionOf A B ca cb) in
  match body pa, body pb with
  | Some ba, Some bb =>
      let '(ba', bb') := resolveVelocity normal ba bb in
      ({| position := posA; physics := Some (withBody pa ba') |},
       {| position := posB; physics := Some (withBody pb bb') |})
  | _, _ =>
      ({| position := posA; physics := Some pa |},
       {| position := posB; physics := Some pb |})
  end.
Proof.
  unfold overlapping, collidePair. intros ->. reflexivity.
Qed.

Lemma collidePair_apart (A B : Mesh F) (pa pb : Physics F)
    (ca cb : SphereCollider F) :
  overlapping A B ca cb = false -> collidePair A B pa pb ca cb = (A, B).
Proof.
  unfold overlapping, collidePair. intros ->. reflexivity.
Qed.

(** The positions an overlapping pair is left with do not depend on the
    bodies. *)
Lemma collidePair_positions (A B : Mesh F)
    (pa pb : Physics F) (ca cb : SphereCollider F) :
  overlapping A B ca cb = true ->
  position (fst (collidePair A B pa pb ca cb)) =
    add (position A) (mulScalar (correctionOf A B ca cb) (- n1)) /\
  position (snd (collidePair A B pa pb ca cb)) =
    add (position B) (correctionOf A B ca cb).
Proof.
  intros Hov. rewrite collidePair_overlapping by exact Hov. cbv zeta.
  destruct (body pa) as [ba|], (body pb) as [bb|]; simpl; auto.
  destruct (resolveVelocity _ ba bb); simpl; auto.
Qed.

Lemma length_collideAt (i j : nat) (meshes : list (Mesh F)) :
  List.length (collideAt i j meshes) = List.length meshes.
Proof.
  unfold collideAt.
  destruct (meshes !! i) as [A|]; [|reflexivity].
  destruct (meshes !! j) as [B|]; [|reflexivity].
  destruct (colliderOf A) as [[pa ca]|]; [|reflexivity].
  destruct (colliderOf B) as [[pb cb]|]; [|reflexivity].
  destruct (collidePair A B pa pb ca cb). now rewrite !length_insert.
Qed.

Lemma collideAt_apart (meshes : list (Mesh F)) (i j : nat) (A B : Mesh F)
    (pa pb : Physics F) (ca cb : SphereCollider F) :
  meshes !! i = Some A -> meshes !! j = Some B ->
  colliderOf A = Some (pa, ca) -> colliderOf B = Some (pb, cb) ->
  overlapping A B ca cb = false ->
  collideAt i j meshes = meshes.
Proof.
  intros Hi Hj HA HB Hov. unfold collideAt.
  rewrite Hi, Hj, HA, HB, (collidePair_apart A B pa pb ca cb Hov).
  rewrite (list_insert_id meshes i A Hi). now apply list_insert_id.
Qed.

(** The last turn of the outer loop has an empty inner loop. *)
Lemma outerStep_last (meshes : list (Mesh F)) (i : nat) :
  List.length meshes = S i -> outerStep meshes i = meshes.
Proof.
  intros Hlen. unfold outerStep, innerLoop. rewrite Hlen, Nat.sub_diag.
  now destruct (meshes !! i ≫= colliderOf).
Qed.

(** On a list of two meshes the collision phase tests the one pair. *)
Lemma collisionPhase_pair (A B : Mesh F) :
  collisionPhase [A; B] =
  match colliderOf A with
  | Some _ => collideAt 0 1 [A; B]
  | None => [A; B]
  end.
Proof.
  change (collisionPhase [A; B]) with (outerStep (outerStep [A; B] 0) 1).
  assert (H0 : outerStep [A; B] 0 =
               match colliderOf A with
               | Some _ => collideAt 0 1 [A; B]
               | None => [A; B]
               end) by reflexivity.
  rewrite H0. apply outerStep_last.
  destruct (colliderOf A); [apply length_collideAt|reflexivity].
Qed.

(** C6: an overlapping pair of bodies that is already separating gets the
    positional correction and keeps both bodies (hence both velocities)
    exactly as they were. *)
Theorem separating_pair_keeps_velocities (A B : Mesh F) (pa pb : Physics F)
    (ca cb : SphereCollider F) (ba bb : SimplePhysicsBody F) :
  body pa = Some ba -> body pb = Some bb ->
  overlapping A B ca cb = true ->
  (n0 <? relAlongNormal (normalOf A B ca cb) ba bb) = true ->
  collidePair A B pa pb ca cb =
  ({| position := add (position A)
                      (mulScalar (correctionOf A B ca cb) (- n1));
      physics := Some pa |},
   {| position := add (position B) (correctionOf A B ca cb);
      physics := Some pb |}).
Proof.
  intros Ha Hb Hov Hsep. rewrite collidePair_overlapping by exact Hov.
  cbv zeta. rewrite Ha, Hb. unfold resolveVelocity. rewrite Hsep.
  now rewrite !withBody_same.
Qed.

End Generic.

(** *** The frame of [stepPhysics] *)

Section Frame.
Context {F : Type} `{Number F}.
Local Open Scope num_scope.

Lemma colliderOf_Some (m : Mesh F) (p : Physics F) (c : SphereCollider F) :
  colliderOf m = Some (p, c) -> physics m = Some p /\ collider p = Some c.
Proof.
  unfold colliderOf. destruct (physics m) as [q|]; [|discriminate].
  destruct (collider q) as [d|] eqn:Hd; [|discriminate].
  intros [= <- <-]. auto.
Qed.

Lemma frame_integrateMesh (dt : F) (m : Mesh F) :
  frame (integrateMesh dt m) = frame m.
Proof.
  unfold frame, bodyMass, colliderShape, integrateMesh, integrate.
  destruct m as [pos [[[b|] c]|]]; simpl; try reflexivity.
  destruct (dt <=? n0); reflexivity.
Qed.

Lemma frame_resolveVelocity (normal : VecLike F)
    (ba bb : SimplePhysicsBody F) :
  mass (fst (resolveVelocity normal ba bb)) = mass ba /\
  mass (snd (resolveVelocity normal ba bb)) = mass bb.
Proof.
  unfold resolveVelocity.
  destruct (n0 <? relAlongNormal normal ba bb); simpl; auto.
Qed.

Lemma frame_collidePair (A B : Mesh F) (pa pb : Physics F)
    (ca cb : SphereCollider F) :
  colliderOf A = Some (pa, ca) -> colliderOf B = Some (pb, cb) ->
  frame (fst (collidePair A B pa pb ca cb)) = frame A /\
  frame (snd (collidePair A B pa pb ca cb)) = frame B.
Proof.
  intros [HA Hca]%colliderOf_Some [HB Hcb]%colliderOf_Some.
  unfold collidePair.
  destruct (length (centerDelta A B ca cb) <? radius ca + radius cb);
    [|now auto].
  cbv zeta. unfold frame, bodyMass, colliderShape.
  destruct (body pa) as [ba|] eqn:Hba, (body pb) as [bb|] eqn:Hbb;
    try (simpl; rewrite HA, HB; simpl; rewrite ?Hba, ?Hbb; now auto).
  pose proof (frame_resolveVelocity
                (contactNormal
                   (nudged (centerDelta A B ca cb)
                           (length (centerDelta A B ca cb)))
                   (length (centerDelta A B ca cb))) ba bb) as [Hma Hmb].
  destruct (resolveVelocity _ ba bb) as [ba' bb']; simpl in *.
  rewrite HA, HB; simpl. rewrite Hba, Hbb; simpl.
  now rewrite Hma, Hmb.
Qed.

Lemma frame_collideAt (i j : nat) (meshes : list (Mesh F)) :
  frame <$> collideAt i j meshes = frame <$> meshes.
Proof.
  unfold collideAt.
  destruct (meshes !! i) as [A|] eqn:Hi; [|reflexivity].
  destruct (meshes !! j) as [B|] eqn:Hj; [|reflexivity].
  destruct (colliderOf A) as [[pa ca]|] eqn:HA; [|reflexivity].
  destruct (colliderOf B) as [[pb cb]|] eqn:HB; [|reflexivity].
  destruct (frame_collidePair A B pa pb ca cb HA HB) as [HfA HfB].
  destruct (collidePair A B pa pb ca cb) as [A' B']; simpl in *.
  rewrite !list_fmap_insert, HfA, HfB.
  rewrite (list_insert_id (frame <$> meshes) i (frame A))
    by (now rewrite list_lookup_fmap, Hi).
  apply list_insert_id. now rewrite list_lookup_fmap, Hj.
Qed.

Lemma frame_collisionPhase (meshes : list (Mesh F)) :
  frame <$> collisionPhase meshes = frame <$> meshes.
Proof.
  unfold collisionPhase.
  apply (foldl_invariant (fun ms => frame <$> ms = frame <$> meshes));
    [|reflexivity].
  intros ms i Hms. unfold outerStep.
  destruct (ms !! i ≫= colliderOf); [|exact Hms].
  unfold innerLoop.
  apply (foldl_invariant (fun ms' => frame <$> ms' = frame <$> meshes));
    [|exact Hms].
  intros ms' j Hms'. now rewrite frame_collideAt.
Qed.

(** In the by-value model, that is for a list of distinct meshes that
    share no object, [stepPhysics] leaves every body's mass and every
    collider (radius and offset) as it was, entry by entry; which entries
    carry a body or a collider does not change either.  What a step does
    to objects that are shared is settled on the heap, in the section on
    what a step writes. *)
Theorem stepPhysics_preserves_mass_and_colliders (meshes : list (Mesh F))
    (dt : F) :
  bodyMass <$> stepPhysics meshes dt = bodyMass <$> meshes /\
  colliderShape <$> stepPhysics meshes dt = colliderShape <$> meshes.
Proof.
  assert (Hf : frame <$> stepPhysics meshes dt = frame <$> meshes).
  { unfold stepPhysics. rewrite frame_collisionPhase, <- list_fmap_compose.
    apply list_fmap_ext. intros _ m _. apply frame_integrateMesh. }
  split.
  - apply (f_equal (fmap fst)) in Hf.
    now rewrite <- !list_fmap_compose in Hf.
  - apply (f_equal (fmap snd)) in Hf.
    now rewrite <- !list_fmap_compose in Hf.
Qed.

End Frame.

(** ** Facts about binary64 arithmetic

    Derived from the specification of the primitive operations
    ([add_spec], [ltb_spec], ...), by cases on the class of the operands.
    None of them involves rounding. *)

Section Binary64.
Local Open Scope float_scope.

Lemma SFcompare_antisym (a b : spec_float) (c : comparison) :
  SFcompare a b = Some c -> SFcompare b a = Some (CompOpp c).
Proof.
  destruct a as [sa|sa| |sa ma ea], b as [sb|sb| |sb mb eb]; simpl;
    try discriminate;
    try (destruct sa; intros [= <-]; reflexivity);
    try (destruct sb; intros [= <-]; reflexivity);
    try (destruct sa, sb; intros [= <-]; reflexivity).
  destruct sa, sb; intros [= <-]; try reflexivity.
  - rewrite (Z.compare_antisym ea eb).
    destruct (ea ?= eb)%Z; simpl; try reflexivity.
    do 2 f_equal. symmetry. apply (Pos.compare_cont_antisym ma mb Eq).
  - rewrite (Z.compare_antisym ea eb).
    destruct (ea ?= eb)%Z; simpl; try reflexivity.
    f_equal. symmetry. apply (Pos.compare_cont_antisym ma mb Eq).
Qed.

Lemma SFcompare_refl (a : spec_float) :
  a <> S754_nan -> SFcompare a a = Some Eq.
Proof.
  destruct a as [s|s| |s m e]; simpl; intros Hn; try congruence.
  - now destruct s.
  - destruct s; rewrite Z.compare_refl, Pos.compare_cont_refl; reflexivity.
Qed.

(** [b <= a] excludes [a < b]. *)
Lemma leb_true_ltb_false (a b : float) :
  (b <=? a) = true -> (a <? b) = false.
Proof.
  rewrite leb_spec, ltb_spec. unfold SFleb, SFltb.
  destruct (SFcompare (Prim2SF a) (Prim2SF b)) as [c|] eqn:Hc;
    [|reflexivity].
  apply SFcompare_antisym in Hc. rewrite Hc. now destruct c.
Qed.

Lemma ltb_true_leb_false (a b : float) :
  (a <? b) = true -> (b <=? a) = false.
Proof.
  rewrite leb_spec, ltb_spec. unfold SFleb, SFltb.
  destruct (SFcompare (Prim2SF a) (Prim2SF b)) as [c|] eqn:Hc;
    [|discriminate].
  apply SFcompare_antisym in Hc. rewrite Hc. now destruct c.
Qed.

(** Whatever is less than something is not NaN. *)
Lemma ltb_true_self_eqb (a b : float) :
  (a <? b) = true -> (a =? a) = true.
Proof.
  rewrite ltb_spec, FloatAxioms.eqb_spec. unfold SFltb, SFeqb. intros Hlt.
  rewrite SFcompare_refl; [reflexivity|].
  intros Hn. rewrite Hn in Hlt. discriminate.
Qed.

Lemma Prim2SF_zero : Prim2SF 0 = S754_zero false.
Proof. reflexivity. Qed.

Lemma Prim2SF_infinity : Prim2SF infinity = S754_infinity false.
Proof. reflexivity. Qed.

Lemma Prim2SF_nan : Prim2SF nan = S754_nan.
Proof. reflexivity. Qed.

(** *** Signed zeros *)

(** [0 + a] is [a], except that [-0] becomes [+0]. *)
Lemma zero_add (a : float) :
  Prim2SF a <> S754_zero true -> 0 + a = a.
Proof.
  intros Ha. apply Prim2SF_inj. rewrite add_spec, Prim2SF_zero.
  destruct (Prim2SF a) as [[|]|s| |s m e]; simpl; congruence.
Qed.

Lemma zero_add_not_neg_zero (a : float) :
  Prim2SF (0 + a) <> S754_zero true.
Proof.
  rewrite add_spec, Prim2SF_zero.
  destruct (Prim2SF a) as [[|]|s| |s m e] eqn:Ha; simpl; congruence.
Qed.

Lemma add_zero (v : float) :
  Prim2SF v <> S754_zero true -> v + 0 = v.
Proof.
  intros Hv. apply Prim2SF_inj. rewrite add_spec, Prim2SF_zero.
  destruct (Prim2SF v) as [[|]|s| |s m e]; simpl; congruence.
Qed.

Lemma sameValueZero_refl (a : float) : sameValueZero a a = true.
Proof.
  unfold sameValueZero, is_nan. now destruct (a =? a).
Qed.

Lemma zero_add_sameValueZero (a : float) : sameValueZero (0 + a) a = true.
Proof.
  destruct (Prim2SF a) as [[|]|s| |s m e] eqn:Ha;
    try (rewrite zero_add by congruence; apply sameValueZero_refl).
  assert (a = (-0)%float) as -> by (apply Prim2SF_inj; now rewrite Ha).
  reflexivity.
Qed.

(** *** Positive numbers *)

Lemma positive_cases (a : float) :
  (0 <? a) = true ->
  Prim2SF a = S754_infinity false \/
  exists m e, Prim2SF a = S754_finite false m e.
Proof.
  rewrite ltb_spec, Prim2SF_zero. unfold SFltb.
  destruct (Prim2SF a) as [s|[|]| |[|] m e]; simpl; try discriminate; eauto.
Qed.

Lemma positive_finite_cases (a : float) :
  (0 <? a) = true -> is_finite a = true ->
  exists m e, Prim2SF a = S754_finite false m e.
Proof.
  intros [Ha|Ha]%positive_cases; [|now auto].
  unfold is_finite, is_infinity.
  rewrite FloatAxioms.eqb_spec, abs_spec, Ha, Prim2SF_infinity. simpl.
  rewrite orb_true_r. discriminate.
Qed.

Lemma zero_div_positive (m : float) : (0 <? m) = true -> 0 / m = 0.
Proof.
  intros Hm. apply Prim2SF_inj. rewrite div_spec, Prim2SF_zero.
  destruct (positive_cases m Hm) as [->|(p & e & ->)]; reflexivity.
Qed.

Lemma zero_mul_positive_finite (a : float) :
  (0 <? a) = true -> is_finite a = true -> 0 * a = 0.
Proof.
  intros Hpos Hfin. apply Prim2SF_inj. rewrite mul_spec, Prim2SF_zero.
  destruct (positive_finite_cases a Hpos Hfin) as (p & e & ->). reflexivity.
Qed.

(** *** Division by zero *)

(** A quotient by zero is an infinity or NaN, never a finite number. *)
Lemma div_zero_cases (t : float) :
  Prim2SF (t / 0) = S754_nan \/ exists s, Prim2SF (t / 0) = S754_infinity s.
Proof.
  rewrite div_spec, Prim2SF_zero.
  destruct (Prim2SF t) as [s|s| |s m e]; simpl; eauto.
Qed.

Lemma mul_unbounded_cases (n j : float) :
  Prim2SF j = S754_nan \/ (exists s, Prim2SF j = S754_infinity s) ->
  Prim2SF (n * j) = S754_nan \/ exists s, Prim2SF (n * j) = S754_infinity s.
Proof.
  rewrite mul_spec.
  intros [->|[s ->]]; destruct (Prim2SF n) as [sn|sn| |sn m e]; simpl; eauto.
Qed.

Lemma unbounded_mul_zero (i : float) :
  Prim2SF i = S754_nan \/ (exists s, Prim2SF i = S754_infinity s) ->
  i * 0 = nan.
Proof.
  intros Hi. apply Prim2SF_inj. rewrite mul_spec, Prim2SF_zero, Prim2SF_nan.
  destruct Hi as [->|[s ->]]; reflexivity.
Qed.

Lemma sub_nan (v : float) : v - nan = nan.
Proof.
  apply Prim2SF_inj. rewrite sub_spec, Prim2SF_nan.
  now destruct (Prim2SF v) as [s|s| |s m e].
Qed.

Lemma add_nan (v : float) : v + nan = nan.
Proof.
  apply Prim2SF_inj. rewrite add_spec, Prim2SF_nan.
  now destruct (Prim2SF v) as [s|s| |s m e].
Qed.

End Binary64.

(** ** The program on binary64 numbers *)

(** Two values differ when some computed observation tells them apart. *)
Ltac differ_by f :=
  let H := fresh "H" in
  intro H; apply (f_equal f) in H; vm_compute in H; discriminate H.

Section OnBinary64.
Local Open Scope float_scope.

(** C1: the two concrete scenarios.  A and B are unit spheres of mass 1 at
    (0,0,0) and (1.5,0,0).  With both at rest the collision pass moves A to
    (-0.25,0,0) and B to (1.75,0,0) and both velocities stay (0,0,0); with
    B.velocity = (-1,0,0) the positions are corrected in the same way and
    the velocities become (-0.75,0,0) and (-0.25,0,0).  Stated for the
    collision phase alone and for a whole [stepPhysics] call with dt = 0
    (whose integration phase does nothing); with both bodies at rest the
    same comes out of a call with dt = 0.5. *)
Theorem concrete_scenarios :
  let A' (v : VecLike float) := sphereMesh (mkVec (-0.25) 0 0) v 1 1 in
  let B' (v : VecLike float) := sphereMesh (mkVec 1.75 0 0) v 1 1 in
  collisionPhase [scenarioA; scenarioB origin] = [A' origin; B' origin] /\
  stepPhysics [scenarioA; scenarioB origin] 0 = [A' origin; B' origin] /\
  stepPhysics [scenarioA; scenarioB origin] 0.5 = [A' origin; B' origin] /\
  collisionPhase [scenarioA; scenarioB (mkVec (-1) 0 0)] =
    [A' (mkVec (-0.75) 0 0); B' (mkVec (-0.25) 0 0)] /\
  stepPhysics [scenarioA; scenarioB (mkVec (-1) 0 0)] 0 =
    [A' (mkVec (-0.75) 0 0); B' (mkVec (-0.25) 0 0)].
Proof.
  vm_compute. repeat split.
Qed.

Lemma integrate_positive_dt (b : SimplePhysicsBody float)
    (p : VecLike float) (dt : float) :
  (0 <? dt) = true ->
  integrate b p dt =
  let v := mkVec (x (velocity b) + x (accumulatedForce b) / mass b * dt)
                 (y (velocity b) + y (accumulatedForce b) / mass b * dt)
                 (z (velocity b) + z (accumulatedForce b) / mass b * dt) in
  (mkBody v (mass b) zeroVec, add p (mulScalar v dt)).
Proof.
  intros Hdt. unfold integrate.
  change (nle dt n0) with (dt <=? 0). rewrite (ltb_true_leb_false _ _ Hdt).
  reflexivity.
Qed.

(** C3 (as amended): a body of mass m > 0 at rest receives forces summing
    to F and is integrated over dt > 0.  Then its velocity is (F/m) * dt,
    the position has advanced by that velocity times dt, and the pending
    force is zero again; applying the zero force and integrating over a
    finite dt2 > 0 leaves the velocity as it is. *)
Theorem force_then_integrate (forces : list (VecLike float))
    (m dt dt2 : float) (p : VecLike float) :
  (0 <? m) = true -> (0 <? dt) = true ->
  (0 <? dt2) = true -> is_finite dt2 = true ->
  forceResponse forces m dt dt2 p.
Proof.
  intros Hm Hdt Hdt2 Hfin. unfold forceResponse. cbv zeta.
  rewrite applyForces_accumulates.
  rewrite (integrate_positive_dt _ p dt Hdt). cbv zeta.
  rewrite (integrate_positive_dt _ _ dt2 Hdt2). cbv zeta.
  cbn [fst snd velocity mass accumulatedForce newBody applyForce
       x y z zeroVec add].
  fold (totalForce forces).
  split; [|split; [reflexivity|split; [reflexivity|]]].
  - unfold sameVec. cbn [x y z n0 binary64 nadd nmul ndiv].
    now rewrite !zero_add_sameValueZero.
  - cbn [n0 binary64 nadd nmul ndiv].
    change (0 + 0) with 0. rewrite (zero_div_positive m Hm).
    rewrite (zero_mul_positive_finite dt2 Hdt2 Hfin).
    rewrite !add_zero by apply zero_add_not_neg_zero. reflexivity.
Qed.

(** C3 as stated fails for dt2 = Infinity: 0 * Infinity is NaN, so the
    second integration turns the velocity (0,0,0) into (NaN,NaN,NaN). *)
Lemma force_response_fails_at_infinite_dt :
  (0 <? 1) = true /\ (0 <? infinity) = true /\
  velocity (fst (integrate (applyForce (newBody 1) zeroVec) origin infinity))
    = nanVec /\
  ~ forceResponse [] 1 1 infinity origin.
Proof.
  repeat split. intros (_ & _ & _ & Hv). revert Hv.
  differ_by (fun v : VecLike float => is_nan (x v)).
Qed.

(** C4: two collider-bearing meshes whose centres are at least the sum of
    the radii apart are left exactly as they are (positions, velocities and
    all the rest) by the turn of the inner loop that tests them, wherever
    they sit in the list; a collision phase over just the two of them
    changes nothing. *)
Theorem apart_pair_untouched (A B : Mesh float) (pa pb : Physics float)
    (ca cb : SphereCollider float) :
  colliderOf A = Some (pa, ca) -> colliderOf B = Some (pb, cb) ->
  (radius ca + radius cb <=? length (centerDelta A B ca cb)) = true ->
  (forall (meshes : list (Mesh float)) (i j : nat),
      meshes !! i = Some A -> meshes !! j = Some B ->
      collideAt i j meshes = meshes) /\
  collisionPhase [A; B] = [A; B].
Proof.
  intros HA HB Hge.
  assert (Hov : overlapping A B ca cb = false)
    by (apply leb_true_ltb_false, Hge).
  split.
  - intros meshes i j Hi Hj.
    now apply (collideAt_apart meshes i j A B pa pb ca cb).
  - rewrite collisionPhase_pair, HA.
    now apply (collideAt_apart [A; B] 0 1 A B pa pb ca cb).
Qed.

(** C5 as stated fails when the centres coincide: the two unit spheres
    penetrate by 2, so each should move by 1, but each moves by
    0.001 along every axis. *)
Lemma coincident_pair_not_half_penetration :
  let r := collidePair coincident coincident
             (spherePhysics origin 1 1) (spherePhysics origin 1 1)
             unitCollider unitCollider in
  let half := penetrationOf coincident coincident unitCollider unitCollider
              / 2 in
  overlapping coincident coincident unitCollider unitCollider = true /\
  half = 1 /\
  position (fst r) = mkVec (- n0_001) (- n0_001) (- n0_001) /\
  position (snd r) = mkVec n0_001 n0_001 n0_001 /\
  length (sub (position (fst r)) (position coincident)) <> half /\
  length (sub (position (snd r)) (position coincident)) <> half /\
  (length (sub (position (fst r)) (position coincident)) <? 0.5) = true /\
  (length (sub (position (snd r)) (position coincident)) <? 0.5) = true.
Proof.
  cbv zeta. repeat split; try (vm_compute; reflexivity);
    differ_by (fun a : float => a <? 0.5).
Qed.

Lemma invMass_nonpositive (b : SimplePhysicsBody float) :
  (mass b <=? 0) = true -> invMass b = 0.
Proof.
  intros Hm. unfold invMass. change (nlt n0 (mass b)) with (0 <? mass b).
  now rewrite (leb_true_ltb_false _ _ Hm).
Qed.

(** C7 fails on the code: when both masses are <= 0 and the pair is not
    separating, the velocity response divides by [0 + 0] and every
    component of both velocities becomes NaN, whatever the velocities and
    the normal were. *)
Theorem both_immovable_velocities_become_nan (normal : VecLike float)
    (ba bb : SimplePhysicsBody float) :
  (mass ba <=? 0) = true -> (mass bb <=? 0) = true ->
  (0 <? relAlongNormal normal ba bb) = false ->
  resolveVelocity normal ba bb =
  (withVelocity ba nanVec, withVelocity bb nanVec).
Proof.
  intros Hma Hmb Hsep. unfold resolveVelocity.
  change (nlt n0 (relAlongNormal normal ba bb))
    with (0 <? relAlongNormal normal ba bb).
  rewrite Hsep, (invMass_nonpositive ba Hma), (invMass_nonpositive bb Hmb).
  cbv zeta. unfold mulScalar, sub, add, nanVec.
  cbn [x y z nadd nsub nmul ndiv nneg n0 n1 binary64].
  change (0 + 0) with 0.
  set (j := _ / 0).
  assert (Hj : Prim2SF j = S754_nan \/ exists s, Prim2SF j = S754_infinity s)
    by apply div_zero_cases.
  rewrite !(unbounded_mul_zero _ (mul_unbounded_cases _ j Hj)).
  now rewrite !sub_nan, !add_nan.
Qed.

(** The same on a whole step: two overlapping bodies of mass 0 at rest. *)
Lemma immovable_pair_step :
  stepPhysics [immovableA; immovableB] 0 =
  [sphereMesh (mkVec (-0.25) 0 0) nanVec 0 1;
   sphereMesh (mkVec 1.75 0 0) nanVec 0 1].
Proof.
  vm_compute. reflexivity.
Qed.

(** C8 (as amended): [dist] is computed before the nudge and not again
    after it.  For an overlapping pair the divisor [dist || 1] is therefore
    the fallback 1 exactly when [dist === 0], and then the normal is the
    nudge vector (0.001, 0.001, 0.001) itself; when [dist] is not 0 the
    divisor is [dist] and the normal is [delta * (1 / dist)]. *)
Theorem normal_divisor (A B : Mesh float) (ca cb : SphereCollider float) :
  overlapping A B ca cb = true ->
  let delta := centerDelta A B ca cb in
  let dist := length delta in
  truthy dist = negb (dist =? 0) /\
  ((dist =? 0) = true ->
     orElse dist 1 = 1 /\
     normalOf A B ca cb = mkVec n0_001 n0_001 n0_001) /\
  ((dist =? 0) = false ->
     orElse dist 1 = dist /\
     normalOf A B ca cb = mulScalar delta (1 / dist)).
Proof.
  intros Hov delta dist.
  assert (Hself : (dist =? dist) = true).
  { apply (ltb_true_self_eqb dist (radius ca + radius cb)). exact Hov. }
  assert (Htruthy : truthy dist = negb (dist =? 0)).
  { unfold truthy. change (nseq dist dist) with (dist =? dist).
    now rewrite Hself. }
  split; [exact Htruthy|].
  unfold normalOf, contactNormal, nudged, orElse.
  fold delta. fold dist. rewrite Htruthy.
  change (nseq dist n0) with (dist =? 0).
  split; intros ->; simpl; split; reflexivity.
Qed.

(** C8 as stated fails for two unit spheres with the same centre: they
    overlap, [dist] is 0, the divisor is the fallback 1, and the normal is
    the nudge vector and not [delta * (1 / dist)], whether [delta] is taken
    before or after the nudge. *)
Lemma fallback_divisor_is_used :
  let delta :=
    centerDelta coincident coincident unitCollider unitCollider in
  let dist := length delta in
  let normal := normalOf coincident coincident unitCollider unitCollider in
  overlapping coincident coincident unitCollider unitCollider = true /\
  dist = 0 /\ truthy dist = false /\ orElse dist 1 = 1 /\
  normal = mkVec n0_001 n0_001 n0_001 /\
  normal <> mulScalar (nudged delta dist) (1 / dist) /\
  normal <> mulScalar delta (1 / dist).
Proof.
  cbv zeta. repeat split; try (vm_compute; reflexivity);
    differ_by (fun v : VecLike float => is_finite (x v)).
Qed.

(** C9 as stated fails on binary64 numbers: with masses 2 and 5 the
    momentum (2,0,0) of the closing pair becomes (2.0000000000000004,0,0),
    one unit in the last place more. *)
Lemma momentum_changed_by_rounding :
  let r := collidePair heavyA heavyB
             (spherePhysics (mkVec 1 0 0) 2 1) (spherePhysics origin 5 1)
             unitCollider unitCollider in
  overlapping heavyA heavyB unitCollider unitCollider = true /\
  (0 <? relAlongNormal (normalOf heavyA heavyB unitCollider unitCollider)
          (withVelocity (newBody 2) (mkVec 1 0 0))
          (withVelocity (newBody 5) origin)) = false /\
  collisionPhase [heavyA; heavyB] = [fst r; snd r] /\
  pairMomentum heavyA heavyB = Some (mkVec 2 0 0) /\
  pairMomentum (fst r) (snd r) = Some (mkVec 0x1.0000000000001p+1 0 0) /\
  pairMomentum (fst r) (snd r) <> pairMomentum heavyA heavyB.
Proof.
  cbv zeta. repeat split; try (vm_compute; reflexivity).
  differ_by (fun o : option (VecLike float) =>
               match o with Some v => x v =? 2 | None => false end).
Qed.

End OnBinary64.

(** ** The algorithm without rounding *)

Section Exact.
Local Open Scope R_scope.

Lemma vec_eq (u v : VecLike R) :
  x u = x v -> y u = y v -> z u = z v -> u = v.
Proof. destruct u, v; simpl; intros -> -> ->; reflexivity. Qed.

Lemma exact_nlt (a b : R) : nlt a b = true <-> a < b.
Proof. simpl. destruct (Rlt_dec a b); split; auto; discriminate. Qed.

Lemma exact_invMass (b : SimplePhysicsBody R) :
  0 < mass b -> invMass b = 1 / mass b.
Proof.
  intros Hm. unfold invMass. simpl.
  destruct (Rlt_dec 0 (mass b)); [reflexivity|contradiction].
Qed.

Lemma exact_orElse (a b : R) : a <> 0 -> orElse a b = a.
Proof.
  intros Ha. unfold orElse, truthy. simpl.
  destruct (Req_dec_T a a); [|congruence].
  destruct (Req_dec_T a 0); [congruence|reflexivity].
Qed.

Lemma exact_nudged (delta : VecLike R) (dist : R) :
  dist <> 0 -> nudged delta dist = delta.
Proof.
  intros Hd. unfold nudged. simpl. destruct (Req_dec_T dist 0); congruence.
Qed.

(** The impulse taken from one body is the impulse given to the other. *)
Lemma resolveVelocity_conserves_momentum (normal : VecLike R)
    (ba bb : SimplePhysicsBody R) :
  0 < mass ba -> 0 < mass bb ->
  momentum (fst (resolveVelocity normal ba bb))
           (snd (resolveVelocity normal ba bb)) = momentum ba bb.
Proof.
  intros Ha Hb. unfold resolveVelocity.
  destruct (nlt n0 (relAlongNormal normal ba bb)); [reflexivity|].
  cbv zeta. rewrite (exact_invMass ba Ha), (exact_invMass bb Hb).
  set (j := ndiv _ _).
  apply vec_eq; simpl; field; lra.
Qed.

(** C9 (as amended): without rounding, the collision response of two
    bodies of mass > 0 leaves massA * velocityA + massB * velocityB
    exactly as it was (whether or not the pair overlaps or separates). *)
Theorem momentum_conserved_without_rounding (A B : Mesh R)
    (pa pb : Physics R) (ca cb : SphereCollider R)
    (ba bb : SimplePhysicsBody R) :
  colliderOf A = Some (pa, ca) -> colliderOf B = Some (pb, cb) ->
  body pa = Some ba -> body pb = Some bb ->
  0 < mass ba -> 0 < mass bb ->
  pairMomentum (fst (collidePair A B pa pb ca cb))
               (snd (collidePair A B pa pb ca cb)) = pairMomentum A B.
Proof.
  intros [HA _]%colliderOf_Some [HB _]%colliderOf_Some Hba Hbb Hma Hmb.
  assert (Hbefore : pairMomentum A B = Some (momentum ba bb)).
  { unfold pairMomentum, bodyOf. rewrite HA, HB. simpl.
    now rewrite Hba, Hbb. }
  rewrite Hbefore. unfold collidePair.
  destruct (nlt _ _); [|exact Hbefore].
  cbv zeta. rewrite Hba, Hbb.
  pose proof (resolveVelocity_conserves_momentum
    (contactNormal (nudged (centerDelta A B ca cb)
                           (length (centerDelta A B ca cb)))
                   (length (centerDelta A B ca cb))) ba bb Hma Hmb) as Hm.
  destruct (resolveVelocity _ ba bb) as [ba' bb']. simpl in Hm.
  unfold pairMomentum, bodyOf. simpl. now rewrite Hm.
Qed.

Lemma length_nonneg (v : VecLike R) : 0 <= length v.
Proof. apply sqrt_pos. Qed.

Lemma length_mulScalar (v : VecLike R) (s : R) :
  0 <= s -> length (mulScalar v s) = length v * s.
Proof.
  intros Hs. unfold length, mulScalar. simpl.
  replace (x v * s * (x v * s) + y v * s * (y v * s) + z v * s * (z v * s))
    with ((x v * x v + y v * y v + z v * z v) * (s * s)) by ring.
  rewrite sqrt_mult_alt by nra.
  now rewrite sqrt_square.
Qed.

(** Away from the degenerate case the contact normal has length 1. *)
Lemma exact_unit_normal (A B : Mesh R) (ca cb : SphereCollider R) :
  length (centerDelta A B ca cb) <> 0 ->
  length (normalOf A B ca cb) = 1.
Proof.
  intros Hd. unfold normalOf, contactNormal.
  rewrite exact_nudged, exact_orElse by exact Hd.
  pose proof (length_nonneg (centerDelta A B ca cb)) as Hpos.
  set (d := length (centerDelta A B ca cb)) in *.
  change (n1 / d)%num with (1 / d).
  rewrite length_mulScalar; fold d.
  - now field.
  - apply Rlt_le, Rdiv_lt_0_compat; lra.
Qed.

Lemma exact_half_penetration (A B : Mesh R) (ca cb : SphereCollider R) :
  overlapping A B ca cb = true ->
  length (centerDelta A B ca cb) <> 0 ->
  length (correctionOf A B ca cb) = penetrationOf A B ca cb / 2.
Proof.
  intros Hov%exact_nlt Hd. unfold correctionOf, contactCorrection.
  unfold overlapping in Hov. unfold penetrationOf.
  set (d := length (centerDelta A B ca cb)) in *.
  change (radius ca + radius cb - d)%num with (radius ca + radius cb - d).
  change (radius ca + radius cb)%num with (radius ca + radius cb) in Hov.
  change (?p * n0_5)%num with (p * (1 / 2)).
  rewrite length_mulScalar, (exact_unit_normal A B ca cb Hd); lra.
Qed.

Lemma exact_displacement (p c : VecLike R) :
  sub (add p (mulScalar c (- n1)%num)) p = mulScalar c (-1) /\
  sub (add p c) p = c.
Proof.
  split; apply vec_eq; simpl; ring.
Qed.

End Exact.

(** ** Positional correction *)

(** C5 (as amended): for every overlapping pair, whatever bodies are or
    are not attached and whatever their masses, [A.position] becomes
    [A.position + correction * (-1)] and [B.position] becomes
    [B.position + correction], with
    [correction = normal * (penetration * 0.5)]; this holds on binary64
    numbers as on any other reading of the operations.  Without rounding
    and with centres that do not coincide, the two displacements are
    [-correction] and [correction], the normal has length 1 and the
    correction has length [penetration / 2]. *)
Theorem positional_correction :
  (forall (F : Type) (N : Number F) (A B : Mesh F) (pa pb : Physics F)
          (ca cb : SphereCollider F),
      overlapping A B ca cb = true ->
      position (fst (collidePair A B pa pb ca cb)) =
        add (position A) (mulScalar (correctionOf A B ca cb) (- n1)%num) /\
      position (snd (collidePair A B pa pb ca cb)) =
        add (position B) (correctionOf A B ca cb)) /\
  (forall (A B : Mesh R) (pa pb : Physics R) (ca cb : SphereCollider R),
      overlapping A B ca cb = true ->
      length (centerDelta A B ca cb) <> 0%R ->
      sub (position (fst (collidePair A B pa pb ca cb))) (position A) =
        mulScalar (correctionOf A B ca cb) (-1)%R /\
      sub (position (snd (collidePair A B pa pb ca cb))) (position B) =
        correctionOf A B ca cb /\
      length (normalOf A B ca cb) = 1%R /\
      length (correctionOf A B ca cb) =
        (penetrationOf A B ca cb / 2)%R).
Proof.
  split.
  - intros F N A B pa pb ca cb Hov.
    exact (collidePair_positions A B pa pb ca cb Hov).
  - intros A B pa pb ca cb Hov Hd.
    destruct (collidePair_positions A B pa pb ca cb Hov) as [-> ->].
    destruct (exact_displacement (position A) (correctionOf A B ca cb))
      as [HdA _].
    destruct (exact_displacement (position B) (correctionOf A B ca cb))
      as [_ HdB].
    split; [exact HdA|]. split; [exact HdB|]. split.
    + exact (exact_unit_normal A B ca cb Hd).
    + exact (exact_half_penetration A B ca cb Hov Hd).
Qed.

(** ** Instances

    Each property that has hypotheses, applied to a concrete input on which
    the hypotheses hold. *)

Lemma exact_scenario_distance :
  length (centerDelta exactA exactB (newCollider 1%R) (newCollider 1%R))
  = (3 / 2)%R.
Proof.
  unfold length, centerDelta, exactA, exactB, sphereMesh, attachPhysics.
  simpl.
  replace ((3 / 2 + 0 - (0 + 0)) * (3 / 2 + 0 - (0 + 0)) +
           (0 + 0 - (0 + 0)) * (0 + 0 - (0 + 0)) +
           (0 + 0 - (0 + 0)) * (0 + 0 - (0 + 0)))%R
    with ((3 / 2) * (3 / 2))%R by field.
  apply sqrt_square. lra.
Qed.

Lemma exact_scenario_overlapping :
  overlapping exactA exactB (newCollider 1%R) (newCollider 1%R) = true.
Proof.
  unfold overlapping. rewrite exact_scenario_distance.
  apply exact_nlt. simpl. lra.
Qed.

Lemma exact_scenario_apart_centres :
  length (centerDelta exactA exactB (newCollider 1%R) (newCollider 1%R))
  <> 0%R.
Proof.
  rewrite exact_scenario_distance. lra.
Qed.

Section Instances.
Local Open Scope float_scope.

Lemma integrate_nonpositive_dt_noop_witness :
  (-1 <=? 0) = true /\
  integrate (applyForce (newBody 2) (mkVec 1 2 3)) origin (-1) =
  (applyForce (newBody 2) (mkVec 1 2 3), origin).
Proof.
  split; [reflexivity|].
  apply (integrate_nonpositive_dt_noop (F := float)). reflexivity.
Defined.

Lemma force_then_integrate_witness :
  (0 <? 2) = true /\ (0 <? 0.5) = true /\ (0 <? 0.25) = true /\
  is_finite 0.25 = true /\
  forceResponse [mkVec 1 0 0; mkVec 0 2 0] 2 0.5 0.25 origin.
Proof.
  repeat (split; [reflexivity|]).
  apply force_then_integrate; reflexivity.
Defined.

Lemma apart_pair_untouched_witness :
  let B := sphereMesh (mkVec 2 0 0) origin 1 1 in
  (radius unitCollider + radius unitCollider
     <=? length (centerDelta scenarioA B unitCollider unitCollider)) = true /\
  collisionPhase [scenarioA; B] = [scenarioA; B].
Proof.
  cbv zeta. split; [reflexivity|].
  apply (apart_pair_untouched scenarioA (sphereMesh (mkVec 2 0 0) origin 1 1)
           (spherePhysics origin 1 1) (spherePhysics origin 1 1)
           unitCollider unitCollider); reflexivity.
Defined.

Lemma positional_correction_witness :
  (overlapping scenarioA (scenarioB origin) unitCollider unitCollider = true /\
   position (fst (collidePair scenarioA (scenarioB origin)
                    (spherePhysics origin 1 1) (spherePhysics origin 1 1)
                    unitCollider unitCollider)) =
     add (position scenarioA)
         (mulScalar (correctionOf scenarioA (scenarioB origin)
                       unitCollider unitCollider) (-1))) /\
  length (correctionOf exactA exactB (newCollider 1%R) (newCollider 1%R)) =
    (penetrationOf exactA exactB (newCollider 1%R) (newCollider 1%R) / 2)%R.
Proof.
  split; [split; [reflexivity|]|].
  - apply (proj1 positional_correction float binary64). reflexivity.
  - apply (proj2 positional_correction exactA exactB
             (spherePhysics (mkVec 1 0 0) 2 1)%R
             (spherePhysics (mkVec 0 0 0) 5 1)%R
             (newCollider 1%R) (newCollider 1%R)
             exact_scenario_overlapping exact_scenario_apart_centres).
Defined.

Lemma separating_pair_keeps_velocities_witness :
  let A := sphereMesh origin (mkVec (-1) 0 0) 1 1 in
  let B := sphereMesh (mkVec 1.5 0 0) (mkVec 1 0 0) 1 1 in
  let pa := spherePhysics (mkVec (-1) 0 0) 1 1 in
  let pb := spherePhysics (mkVec 1 0 0) 1 1 in
  overlapping A B unitCollider unitCollider = true /\
  (0 <? relAlongNormal (normalOf A B unitCollider unitCollider)
          (withVelocity (newBody 1) (mkVec (-1) 0 0))
          (withVelocity (newBody 1) (mkVec 1 0 0))) = true /\
  collidePair A B pa pb unitCollider unitCollider =
  ({| position := add (position A)
                      (mulScalar (correctionOf A B unitCollider unitCollider)
                                 (-1));
      physics := Some pa |},
   {| position := add (position B)
                      (correctionOf A B unitCollider unitCollider);
      physics := Some pb |}).
Proof.
  cbv zeta. split; [reflexivity|]. split; [reflexivity|].
  exact (separating_pair_keeps_velocities (F := float)
           (sphereMesh origin (mkVec (-1) 0 0) 1 1)
           (sphereMesh (mkVec 1.5 0 0) (mkVec 1 0 0) 1 1)
           (spherePhysics (mkVec (-1) 0 0) 1 1)
           (spherePhysics (mkVec 1 0 0) 1 1)
           unitCollider unitCollider
           (withVelocity (newBody 1) (mkVec (-1) 0 0))
           (withVelocity (newBody 1) (mkVec 1 0 0))
           eq_refl eq_refl eq_refl eq_refl).
Defined.

Lemma both_immovable_velocities_become_nan_witness :
  (mass (newBody 0) <=? 0) = true /\
  (0 <? relAlongNormal (mkVec 1 0 0) (newBody 0) (newBody 0)) = false /\
  resolveVelocity (mkVec 1 0 0) (newBody 0) (newBody 0) =
  (withVelocity (newBody 0) nanVec, withVelocity (newBody 0) nanVec).
Proof.
  split; [reflexivity|]. split; [reflexivity|].
  apply both_immovable_velocities_become_nan; reflexivity.
Defined.

Lemma normal_divisor_witness :
  overlapping coincident coincident unitCollider unitCollider = true /\
  truthy (length (centerDelta coincident coincident
                    unitCollider unitCollider)) =
  negb (length (centerDelta coincident coincident
                  unitCollider unitCollider) =? 0).
Proof.
  split; [reflexivity|].
  apply (normal_divisor coincident coincident unitCollider unitCollider).
  reflexivity.
Defined.

Lemma momentum_conserved_without_rounding_witness :
  let pa := (spherePhysics (mkVec 1 0 0) 2 1)%R in
  let pb := (spherePhysics (mkVec 0 0 0) 5 1)%R in
  (0 < 2)%R /\ (0 < 5)%R /\
  pairMomentum
    (fst (collidePair exactA exactB pa pb (newCollider 1%R) (newCollider 1%R)))
    (snd (collidePair exactA exactB pa pb (newCollider 1%R) (newCollider 1%R)))
  = pairMomentum exactA exactB.
Proof.
  cbv zeta. split; [lra|]. split; [lra|].
  apply (momentum_conserved_without_rounding exactA exactB
           (spherePhysics (mkVec 1 0 0) 2 1)%R
           (spherePhysics (mkVec 0 0 0) 5 1)%R
           (newCollider 1%R) (newCollider 1%R)
           (withVelocity (newBody 2) (mkVec 1 0 0))%R
           (withVelocity (newBody 5) (mkVec 0 0 0))%R);
    try reflexivity; simpl; lra.
Defined.

End Instances.

(** ** Further properties of the physics step *)

Section MoreGeneric.
Context {F : Type} `{Number F}.
Local Open Scope num_scope.

Lemma foldl_invariant_elem {A B : Type} (P : A -> Prop) (f : A -> B -> A)
    (l : list B) :
  (forall a b, b ∈ l -> P a -> P (f a b)) -> forall a, P a -> P (foldl f a l).
Proof.
  induction l as [|b l IH]; intros Hstep a Ha; simpl; [exact Ha|].
  apply IH.
  - intros a' b' Hb'. apply Hstep. now right.
  - apply Hstep; [left|exact Ha].
Qed.

Lemma integrateMesh_nonpositive_dt (dt : F) (m : Mesh F) :
  (dt <=? n0) = true -> integrateMesh dt m = m.
Proof.
  intros Hdt. unfold integrateMesh.
  destruct m as [pos [[[b|] c]|]]; simpl; try reflexivity.
  unfold integrate. now rewrite Hdt.
Qed.

(** A step with dt <= 0 integrates nothing but still detects and resolves
    collisions. *)
Theorem stepPhysics_nonpositive_dt (meshes : list (Mesh F)) (dt : F) :
  (dt <=? n0) = true -> stepPhysics meshes dt = collisionPhase meshes.
Proof.
  intros Hdt. unfold stepPhysics. f_equal.
  rewrite <- (list_fmap_id meshes) at 2.
  apply list_fmap_ext. intros _ m _. now apply integrateMesh_nonpositive_dt.
Qed.

(** A turn of the inner loop needs a collider on both sides. *)
Lemma collideAt_without_collider (i j : nat) (meshes : list (Mesh F)) :
  (forall A, meshes !! i = Some A -> colliderOf A = None) \/
  (forall B, meshes !! j = Some B -> colliderOf B = None) ->
  collideAt i j meshes = meshes.
Proof.
  intros Hno. unfold collideAt.
  destruct (meshes !! i) as [A|]; [|reflexivity].
  destruct (meshes !! j) as [B|]; [|reflexivity].
  destruct Hno as [Hno|Hno]; rewrite (Hno _ eq_refl); [reflexivity|].
  now destruct (colliderOf A) as [[pa ca]|].
Qed.

Lemma collisionPhase_single_collider (meshes : list (Mesh F)) (k : nat) :
  (forall i m, meshes !! i = Some m -> i <> k -> colliderOf m = None) ->
  collisionPhase meshes = meshes.
Proof.
  intros Hone. unfold collisionPhase.
  apply (foldl_invariant (fun ms => ms = meshes)); [|reflexivity].
  intros ms i ->. unfold outerStep.
  destruct (meshes !! i ≫= colliderOf); [|reflexivity].
  unfold innerLoop.
  apply (foldl_invariant_elem (fun ms => ms = meshes)); [|reflexivity].
  intros ms j Hj ->. apply collideAt_without_collider.
  apply elem_of_seq in Hj.
  destruct (decide (i = k)) as [->|Hik].
  - right. intros B HB. apply (Hone j B HB). lia.
  - left. intros A HA. exact (Hone i A HA Hik).
Qed.

Lemma colliderOf_integrateMesh (dt : F) (m : Mesh F) :
  colliderOf (integrateMesh dt m) = None <-> colliderOf m = None.
Proof.
  unfold colliderOf, integrateMesh.
  destruct m as [pos [[[b|] [c|]]|]]; simpl; try tauto;
    destruct (integrate b pos dt); simpl; try tauto;
    split; intros Hx; discriminate Hx.
Qed.

(** With at most one collider in the list (none, or only at index [k]) no
    pair qualifies: the collision phase changes nothing, and a step is the
    integration of every mesh on its own.  This covers the empty list and
    the list of one mesh. *)
Theorem single_collider_never_collides (meshes : list (Mesh F)) (k : nat)
    (dt : F) :
  (forall i m, meshes !! i = Some m -> i <> k -> colliderOf m = None) ->
  collisionPhase meshes = meshes /\
  stepPhysics meshes dt = integrateMesh dt <$> meshes.
Proof.
  intros Hone. split; [exact (collisionPhase_single_collider meshes k Hone)|].
  unfold stepPhysics. apply (collisionPhase_single_collider _ k).
  intros i m' Hi Hik. rewrite list_lookup_fmap in Hi.
  destruct (meshes !! i) as [m|] eqn:Hm; [|discriminate].
  simpl in Hi. injection Hi as <-.
  apply colliderOf_integrateMesh. exact (Hone i m Hm Hik).
Qed.

Lemma collideAt_keeps_colliderless (i j k : nat) (meshes : list (Mesh F))
    (m : Mesh F) :
  meshes !! k = Some m -> colliderOf m = None ->
  collideAt i j meshes !! k = Some m.
Proof.
  intros Hk Hm.
  destruct (decide (k = i)) as [->|Hki].
  { rewrite collideAt_without_collider; [exact Hk|].
    left. intros A HA. congruence. }
  destruct (decide (k = j)) as [->|Hkj].
  { rewrite collideAt_without_collider; [exact Hk|].
    right. intros B HB. congruence. }
  unfold collideAt.
  destruct (meshes !! i) as [A|]; [|exact Hk].
  destruct (meshes !! j) as [B|]; [|exact Hk].
  destruct (colliderOf A) as [[pa ca]|]; [|exact Hk].
  destruct (colliderOf B) as [[pb cb]|]; [|exact Hk].
  destruct (collidePair A B pa pb ca cb) as [A' B'].
  rewrite !list_lookup_insert_ne by congruence. exact Hk.
Qed.

Lemma collisionPhase_keeps_colliderless (k : nat) (meshes : list (Mesh F))
    (m : Mesh F) :
  meshes !! k = Some m -> colliderOf m = None ->
  collisionPhase meshes !! k = Some m.
Proof.
  intros Hk Hm. unfold collisionPhase.
  apply (foldl_invariant (fun ms => ms !! k = Some m)); [|exact Hk].
  intros ms i Hms. unfold outerStep.
  destruct (ms !! i ≫= colliderOf); [|exact Hms].
  unfold innerLoop.
  apply (foldl_invariant (fun ms' => ms' !! k = Some m)); [|exact Hms].
  intros ms' j Hms'. now apply collideAt_keeps_colliderless.
Qed.

(** In the by-value model, that is for a list of distinct meshes that
    share no object, a mesh without a collider takes no part in
    collisions: a step only integrates it (and leaves it alone when it has
    no body either).  With the sharing conditions spelled out the same is
    proved on the heap, in the section on a mesh that shares no object. *)
Theorem stepPhysics_without_collider (meshes : list (Mesh F)) (dt : F)
    (k : nat) (m : Mesh F) :
  meshes !! k = Some m -> colliderOf m = None ->
  stepPhysics meshes dt !! k = Some (integrateMesh dt m).
Proof.
  intros Hk Hm. unfold stepPhysics.
  apply collisionPhase_keeps_colliderless.
  - now rewrite list_lookup_fmap, Hk.
  - now apply colliderOf_integrateMesh.
Qed.

(** An overlapping pair in which a body is missing on either side gets the
    positional correction and nothing else: no impulse is applied, the
    body that is there keeps its velocity. *)
Theorem static_obstacle_only_corrects (A B : Mesh F) (pa pb : Physics F)
    (ca cb : SphereCollider F) :
  body pa = None \/ body pb = None ->
  overlapping A B ca cb = true ->
  collidePair A B pa pb ca cb =
  ({| position := add (position A)
                      (mulScalar (correctionOf A B ca cb) (- n1));
      physics := Some pa |},
   {| position := add (position B) (correctionOf A B ca cb);
      physics := Some pb |}).
Proof.
  intros Hnone Hov. rewrite collidePair_overlapping by exact Hov. cbv zeta.
  destruct Hnone as [-> | ->]; [reflexivity|].
  now destruct (body pa).
Qed.

End MoreGeneric.

(** ** More facts about binary64 arithmetic *)

Section MoreBinary64.
Local Open Scope float_scope.


Lemma unbounded_not_finite (a : float) : unbounded a -> is_finite a = false.
Proof.
  unfold is_finite, is_nan, is_infinity.
  rewrite !FloatAxioms.eqb_spec, abs_spec, Prim2SF_infinity.
  intros [->|[s ->]]; [reflexivity|]. now destruct s.
Qed.

Lemma finite_cases (a : float) :
  is_finite a = true ->
  (exists s, Prim2SF a = S754_zero s) \/
  exists s m e, Prim2SF a = S754_finite s m e.
Proof.
  intros Hfin.
  destruct (Prim2SF a) as [s|s| |s m e] eqn:Ha; eauto.
  - rewrite unbounded_not_finite in Hfin; [discriminate|right; eauto].
  - rewrite unbounded_not_finite in Hfin; [discriminate|now left].
Qed.

Lemma is_nan_Prim2SF (a : float) : is_nan a = true -> Prim2SF a = S754_nan.
Proof.
  unfold is_nan. rewrite FloatAxioms.eqb_spec. unfold SFeqb.
  destruct (Prim2SF a) as [s|s| |s m e] eqn:Ha; try reflexivity;
    rewrite SFcompare_refl by discriminate; discriminate.
Qed.

Lemma eqb_zero_cases (a : float) :
  (a =? 0) = true -> exists s, Prim2SF a = S754_zero s.
Proof.
  rewrite FloatAxioms.eqb_spec, Prim2SF_zero. unfold SFeqb.
  destruct (Prim2SF a) as [s|s| |s m e]; simpl; eauto; try discriminate;
    destruct s; discriminate.
Qed.

Lemma div_by_zero_unbounded (t m : float) :
  (m =? 0) = true -> unbounded (t / m).
Proof.
  intros [s Hm]%eqb_zero_cases. unfold unbounded. rewrite div_spec, Hm.
  destruct (Prim2SF t) as [st|st| |st mt et]; simpl; eauto.
Qed.

Lemma zero_div_zero (m : float) : (m =? 0) = true -> 0 / m = nan.
Proof.
  intros [s Hm]%eqb_zero_cases. apply Prim2SF_inj.
  now rewrite div_spec, Hm, Prim2SF_zero, Prim2SF_nan.
Qed.

Lemma unbounded_mul_positive (a dt : float) :
  unbounded a -> (0 <? dt) = true -> unbounded (a * dt).
Proof.
  intros Ha Hdt. unfold unbounded. rewrite mul_spec.
  destruct (positive_cases dt Hdt) as [->|(m & e & ->)];
    destruct Ha as [->|[s ->]]; simpl; eauto.
Qed.

Lemma add_unbounded (v a : float) : unbounded a -> unbounded (v + a).
Proof.
  intros Ha. unfold unbounded. rewrite add_spec.
  destruct Ha as [->|[s ->]];
    destruct (Prim2SF v) as [sv|sv| |sv mv ev]; simpl; eauto;
    destruct sv, s; simpl; eauto.
Qed.

Lemma nan_mul (a : float) : nan * a = nan.
Proof.
  apply Prim2SF_inj. now rewrite mul_spec, Prim2SF_nan.
Qed.

Lemma mul_nan (a : float) : a * nan = nan.
Proof.
  apply Prim2SF_inj. rewrite mul_spec, Prim2SF_nan.
  now destruct (Prim2SF a).
Qed.

Lemma nan_add (a : float) : nan + a = nan.
Proof.
  apply Prim2SF_inj. now rewrite add_spec, Prim2SF_nan.
Qed.

Lemma sqrt_nan : PrimFloat.sqrt nan = nan.
Proof. reflexivity. Qed.

Lemma ltb_nan (a : float) : (a <? nan) = false.
Proof.
  rewrite ltb_spec, Prim2SF_nan. unfold SFltb.
  now destruct (Prim2SF a).
Qed.

(** [v + 0] is [v] up to the sign of zero. *)
Lemma add_zero_sameValueZero (v : float) : sameValueZero (v + 0) v = true.
Proof.
  destruct (Prim2SF v) as [[|]|s| |s m e] eqn:Hv;
    try (rewrite add_zero by congruence; apply sameValueZero_refl).
  assert (v = (-0)%float) as -> by (apply Prim2SF_inj; now rewrite Hv).
  reflexivity.
Qed.

(** A finite number times zero is a zero. *)
Lemma finite_mul_zero (i : float) :
  is_finite i = true -> exists s, Prim2SF (i * 0) = S754_zero s.
Proof.
  intros Hi. rewrite mul_spec, Prim2SF_zero.
  destruct (finite_cases i Hi) as [[s ->]|(s & m & e & ->)]; simpl; eauto.
Qed.

Lemma sub_signed_zero (v o : float) (s : bool) :
  Prim2SF o = S754_zero s -> sameValueZero (v - o) v = true.
Proof.
  intros Ho.
  destruct (Prim2SF v) as [sv|sv| |sv mv ev] eqn:Hv.
  - assert (Hz : exists s', Prim2SF (v - o) = S754_zero s').
    { rewrite sub_spec, Hv, Ho. destruct sv, s; simpl; eauto. }
    destruct Hz as [s' Hz]. unfold sameValueZero.
    rewrite FloatAxioms.eqb_spec, Hz, Hv. reflexivity.
  - replace (v - o) with v; [apply sameValueZero_refl|].
    apply Prim2SF_inj. now rewrite sub_spec, Hv, Ho.
  - replace (v - o) with v; [apply sameValueZero_refl|].
    apply Prim2SF_inj. now rewrite sub_spec, Hv, Ho.
  - replace (v - o) with v; [apply sameValueZero_refl|].
    apply Prim2SF_inj. now rewrite sub_spec, Hv, Ho.
Qed.

Lemma add_signed_zero (v o : float) (s : bool) :
  Prim2SF o = S754_zero s -> sameValueZero (v + o) v = true.
Proof.
  intros Ho.
  destruct (Prim2SF v) as [sv|sv| |sv mv ev] eqn:Hv.
  - assert (Hz : exists s', Prim2SF (v + o) = S754_zero s').
    { rewrite add_spec, Hv, Ho. destruct sv, s; simpl; eauto. }
    destruct Hz as [s' Hz]. unfold sameValueZero.
    rewrite FloatAxioms.eqb_spec, Hz, Hv. reflexivity.
  - replace (v + o) with v; [apply sameValueZero_refl|].
    apply Prim2SF_inj. now rewrite add_spec, Hv, Ho.
  - replace (v + o) with v; [apply sameValueZero_refl|].
    apply Prim2SF_inj. now rewrite add_spec, Hv, Ho.
  - replace (v + o) with v; [apply sameValueZero_refl|].
    apply Prim2SF_inj. now rewrite add_spec, Hv, Ho.
Qed.

(** Multiplication is commutative, rounding included. *)
Lemma mul_comm (a b : float) : a * b = b * a.
Proof.
  apply Prim2SF_inj. rewrite !mul_spec. unfold SF64mul, SFmul.
  destruct (Prim2SF a) as [sa|sa| |sa ma ea],
           (Prim2SF b) as [sb|sb| |sb mb eb];
    try reflexivity; try (now rewrite xorb_comm).
  now rewrite xorb_comm, Pos.mul_comm, Z.add_comm.
Qed.

(** A finite number minus itself is [+0]. *)
Lemma sub_diag_finite (t : float) : is_finite t = true -> t - t = 0.
Proof.
  intros Ht. apply Prim2SF_inj. rewrite sub_spec, Prim2SF_zero.
  destruct (finite_cases t Ht) as [[s ->]|(s & m & e & ->)].
  - now destruct s.
  - unfold SF64sub, SFsub. now rewrite Z.sub_diag.
Qed.

End MoreBinary64.

(** ** More of the program on binary64 numbers *)

Section MoreOnBinary64.
Local Open Scope float_scope.

Lemma unbounded_velocity_step (v f m dt : float) :
  (m =? 0) = true -> (0 <? dt) = true -> unbounded (v + f / m * dt).
Proof.
  intros Hm Hdt. apply add_unbounded, unbounded_mul_positive; [|exact Hdt].
  now apply div_by_zero_unbounded.
Qed.

(** A body of mass 0 cannot be integrated: over any dt > 0 every component
    of its velocity and of the position becomes NaN or an infinity,
    whatever force is pending; with no force pending all of them are
    NaN. *)
Theorem massless_body_integrates_to_non_finite
    (b : SimplePhysicsBody float) (p : VecLike float) (dt : float) :
  (mass b =? 0) = true -> (0 <? dt) = true ->
  noFiniteComponent (velocity (fst (integrate b p dt))) = true /\
  noFiniteComponent (snd (integrate b p dt)) = true /\
  (accumulatedForce b = zeroVec ->
   integrate b p dt = (mkBody nanVec (mass b) zeroVec, nanVec)).
Proof.
  intros Hm Hdt. rewrite (integrate_positive_dt b p dt Hdt). cbv zeta.
  cbn [fst snd velocity add mulScalar x y z nadd nmul binary64].
  split; [|split].
  - unfold noFiniteComponent. cbn [x y z].
    now rewrite !unbounded_not_finite
      by (now apply unbounded_velocity_step).
  - unfold noFiniteComponent. cbn [x y z].
    now rewrite !unbounded_not_finite
      by (apply add_unbounded, unbounded_mul_positive;
          [now apply unbounded_velocity_step|exact Hdt]).
  - intros ->. cbn [zeroVec x y z n0 binary64].
    rewrite (zero_div_zero _ Hm), !nan_mul, !add_nan.
    unfold add, mulScalar. cbn [x y z nanVec nadd nmul binary64].
    now rewrite !nan_mul, !add_nan.
Qed.

(** Newton's first law: with no force pending, a body of mass > 0
    integrated over a finite dt > 0 keeps its velocity (up to the sign of
    zero) and the position advances by that velocity times dt. *)
Theorem unforced_body_keeps_velocity (b : SimplePhysicsBody float)
    (p : VecLike float) (dt : float) :
  accumulatedForce b = zeroVec -> (0 <? mass b) = true ->
  (0 <? dt) = true -> is_finite dt = true ->
  sameVec (velocity (fst (integrate b p dt))) (velocity b) = true /\
  snd (integrate b p dt) =
    add p (mulScalar (velocity (fst (integrate b p dt))) dt).
Proof.
  intros HF Hm Hdt Hfin. rewrite (integrate_positive_dt b p dt Hdt).
  cbv zeta. cbn [fst snd velocity]. split; [|reflexivity].
  rewrite HF. unfold sameVec. cbn [zeroVec x y z n0 binary64].
  rewrite (zero_div_positive _ Hm), (zero_mul_positive_finite dt Hdt Hfin).
  now rewrite !add_zero_sameValueZero.
Qed.

(** Next to an impulse that is finite, a body of mass <= 0 is immovable:
    the collision response leaves its velocity as it was (up to the sign
    of zero). *)
Theorem immovable_body_keeps_velocity (normal : VecLike float)
    (ba bb : SimplePhysicsBody float) :
  (0 <? relAlongNormal normal ba bb) = false ->
  finiteVec (impulseOf normal ba bb) = true ->
  ((mass ba <=? 0) = true ->
   sameVec (velocity (fst (resolveVelocity normal ba bb))) (velocity ba)
   = true) /\
  ((mass bb <=? 0) = true ->
   sameVec (velocity (snd (resolveVelocity normal ba bb))) (velocity bb)
   = true).
Proof.
  intros Hsep Hfin.
  assert (Hres : resolveVelocity normal ba bb =
    (withVelocity ba (sub (velocity ba)
                          (mulScalar (impulseOf normal ba bb) (invMass ba))),
     withVelocity bb (add (velocity bb)
                          (mulScalar (impulseOf normal ba bb) (invMass bb))))).
  { unfold resolveVelocity.
    change (nlt n0 (relAlongNormal normal ba bb))
      with (0 <? relAlongNormal normal ba bb).
    now rewrite Hsep. }
  rewrite Hres. cbn [fst snd velocity withVelocity].
  unfold finiteVec in Hfin.
  apply andb_prop in Hfin as [Hfin Hz]. apply andb_prop in Hfin as [Hx Hy].
  destruct (finite_mul_zero _ Hx) as [sx Hsx].
  destruct (finite_mul_zero _ Hy) as [sy Hsy].
  destruct (finite_mul_zero _ Hz) as [sz Hsz].
  split; intros Hmass; rewrite (invMass_nonpositive _ Hmass);
    unfold sameVec, sub, add, mulScalar; cbn [x y z nadd nsub nmul binary64].
  - now rewrite (sub_signed_zero _ _ sx Hsx), (sub_signed_zero _ _ sy Hsy),
      (sub_signed_zero _ _ sz Hsz).
  - now rewrite (add_signed_zero _ _ sx Hsx), (add_signed_zero _ _ sy Hsy),
      (add_signed_zero _ _ sz Hsz).
Qed.

Lemma nan_component_length (a b c : float) :
  is_nan a || is_nan b || is_nan c = true ->
  PrimFloat.sqrt (a * a + b * b + c * c) = nan.
Proof.
  intros Hn.
  apply orb_prop in Hn as [Hn|Hc]; [apply orb_prop in Hn as [Ha|Hb]|].
  - apply is_nan_Prim2SF in Ha.
    assert (a = nan) as -> by (apply Prim2SF_inj; now rewrite Ha).
    now rewrite nan_mul, !nan_add.
  - apply is_nan_Prim2SF in Hb.
    assert (b = nan) as -> by (apply Prim2SF_inj; now rewrite Hb).
    now rewrite nan_mul, add_nan, nan_add.
  - apply is_nan_Prim2SF in Hc.
    assert (c = nan) as -> by (apply Prim2SF_inj; now rewrite Hc).
    now rewrite nan_mul, add_nan.
Qed.

Lemma zero_square (a : float) : (a =? 0) = true -> a * a = 0.
Proof.
  intros [s Ha]%eqb_zero_cases. apply Prim2SF_inj.
  rewrite mul_spec, Ha, Prim2SF_zero. now destruct s.
Qed.

(** [normalize] never divides by a length that is not positive: for a
    zero vector (of either sign of zero) and for a vector with a NaN
    component it returns (0, 0, 0). *)
Theorem normalize_degenerate (v : VecLike float) :
  is_nan (x v) || is_nan (y v) || is_nan (z v) = true \/
  (x v =? 0) && (y v =? 0) && (z v =? 0) = true ->
  Vec3_normalize v = zeroVec.
Proof.
  intros Hdeg. unfold Vec3_normalize. cbv zeta.
  cbn [nadd nmul nsqrt nlt n0 binary64].
  destruct Hdeg as [Hn|Hz].
  - now rewrite (nan_component_length _ _ _ Hn), ltb_nan.
  - apply andb_prop in Hz as [Hz Hc]. apply andb_prop in Hz as [Ha Hb].
    now rewrite (zero_square _ Ha), (zero_square _ Hb), (zero_square _ Hc).
Qed.

(** The cross product of a vector with itself is (0, 0, 0) whenever the
    products of its components are finite. *)
Theorem cross_self (v : VecLike float) :
  is_finite (y v * z v) = true -> is_finite (z v * x v) = true ->
  is_finite (x v * y v) = true ->
  Vec3_cross v v = zeroVec.
Proof.
  intros Hyz Hzx Hxy. unfold Vec3_cross, zeroVec.
  cbn [nsub nmul n0 binary64].
  rewrite (mul_comm (z v) (y v)), (mul_comm (x v) (z v)),
    (mul_comm (y v) (x v)).
  now rewrite !sub_diag_finite.
Qed.

End MoreOnBinary64.

Section NanOnBinary64.
Local Open Scope float_scope.

Lemma is_nan_eq (a : float) : is_nan a = true -> a = nan.
Proof.
  intros Ha%is_nan_Prim2SF. apply Prim2SF_inj. now rewrite Ha.
Qed.

Lemma nan_sub (a : float) : nan - a = nan.
Proof.
  apply Prim2SF_inj. now rewrite sub_spec, Prim2SF_nan.
Qed.

Lemma nan_ltb (a : float) : (nan <? a) = false.
Proof.
  now rewrite ltb_spec, Prim2SF_nan.
Qed.

(** The guard [dt <= 0] does not catch a NaN time step: integrating over
    it makes the velocity and the position NaN in every component. *)
Theorem nan_dt_is_integrated (b : SimplePhysicsBody float)
    (p : VecLike float) (dt : float) :
  is_nan dt = true ->
  integrate b p dt = (mkBody nanVec (mass b) zeroVec, nanVec).
Proof.
  intros ->%is_nan_eq. unfold integrate.
  change (nle nan n0) with false. cbv iota zeta.
  cbn [x y z nadd nmul ndiv binary64].
  now rewrite !mul_nan, !add_nan.
Qed.

Lemma nan_position_length (A B : Mesh float) (ca cb : SphereCollider float) :
  is_nan (x (position A)) || is_nan (y (position A))
  || is_nan (z (position A)) = true \/
  is_nan (x (position B)) || is_nan (y (position B))
  || is_nan (z (position B)) = true ->
  length (centerDelta A B ca cb) = nan.
Proof.
  intros Hnan. unfold length, centerDelta, sub, add.
  cbn [x y z nadd nsub nmul nsqrt binary64].
  apply nan_component_length.
  destruct Hnan as [Hn|Hn];
    (apply orb_prop in Hn as [Hn|Hz]; [apply orb_prop in Hn as [Hx|Hy]|]).
  - apply is_nan_eq in Hx. rewrite Hx, nan_add, sub_nan. reflexivity.
  - apply is_nan_eq in Hy. rewrite Hy, nan_add, sub_nan.
    now rewrite orb_true_r.
  - apply is_nan_eq in Hz. rewrite Hz, nan_add, sub_nan.
    now rewrite orb_true_r.
  - apply is_nan_eq in Hx. rewrite Hx, nan_add, nan_sub. reflexivity.
  - apply is_nan_eq in Hy. rewrite Hy, nan_add, nan_sub.
    now rewrite orb_true_r.
  - apply is_nan_eq in Hz. rewrite Hz, nan_add, nan_sub.
    now rewrite orb_true_r.
Qed.

(** A mesh whose position has a NaN component collides with nothing: the
    pair it is tested in is left as it is, so NaN does not spread through
    the collision phase. *)
Theorem nan_position_never_collides (A B : Mesh float)
    (pa pb : Physics float) (ca cb : SphereCollider float) :
  is_nan (x (position A)) || is_nan (y (position A))
  || is_nan (z (position A)) = true \/
  is_nan (x (position B)) || is_nan (y (position B))
  || is_nan (z (position B)) = true ->
  collidePair A B pa pb ca cb = (A, B).
Proof.
  intros Hnan. apply collidePair_apart. unfold overlapping.
  rewrite (nan_position_length A B ca cb Hnan).
  apply nan_ltb.
Qed.

End NanOnBinary64.

(** ** More of the algorithm without rounding *)

Section MoreExact.
Local Open Scope R_scope.

Lemma exact_nlt_false (a b : R) : nlt a b = false <-> b <= a.
Proof.
  simpl. destruct (Rlt_dec a b); split; intros;
    try lra; try discriminate; try reflexivity.
Qed.

Lemma length_unit_dot (n : VecLike R) : length n = 1 -> dot n n = 1.
Proof.
  unfold length, dot. simpl. intros Hn.
  assert (Hpos : 0 <= x n * x n + y n * y n + z n * z n) by nra.
  rewrite <- (sqrt_sqrt _ Hpos), Hn. lra.
Qed.

Lemma restitution_along_unit_normal (n : VecLike R)
    (ba bb : SimplePhysicsBody R) :
  dot n n = 1 -> 0 < mass ba -> 0 < mass bb ->
  relAlongNormal n ba bb <= 0 ->
  relAlongNormal n (fst (resolveVelocity n ba bb))
                   (snd (resolveVelocity n ba bb))
  = - (1 / 2) * relAlongNormal n ba bb.
Proof.
  intros Hn Hma Hmb Hclosing. unfold resolveVelocity.
  destruct (nlt n0 (relAlongNormal n ba bb)) eqn:Hsep;
    [apply exact_nlt in Hsep;
     change (0 < relAlongNormal n ba bb) in Hsep; lra|].
  cbv zeta. rewrite (exact_invMass ba Hma), (exact_invMass bb Hmb).
  set (ran := relAlongNormal n ba bb).
  assert (Hran : ran = (x (velocity bb) - x (velocity ba)) * x n
                       + (y (velocity bb) - y (velocity ba)) * y n
                       + (z (velocity bb) - z (velocity ba)) * z n)
    by reflexivity.
  assert (Hinv : 1 / mass ba + 1 / mass bb <> 0).
  { assert (0 < 1 / mass ba) by (apply Rdiv_lt_0_compat; lra).
    assert (0 < 1 / mass bb) by (apply Rdiv_lt_0_compat; lra). lra. }
  change (- (n1 + restitution) * ran / (1 / mass ba + 1 / mass bb))%num
    with (- (1 + 1 / 2) * ran / (1 / mass ba + 1 / mass bb)).
  set (j := - (1 + 1 / 2) * ran / (1 / mass ba + 1 / mass bb)).
  assert (Hj : j * (1 / mass ba + 1 / mass bb) = - (3 / 2) * ran)
    by (unfold j; field; lra).
  unfold dot in Hn. unfold relAlongNormal. simpl.
  transitivity (ran + j * (1 / mass ba + 1 / mass bb)
                      * (x n * x n + y n * y n + z n * z n)).
  - fold j. rewrite Hran. ring.
  - change (x n * x n + y n * y n + z n * z n)%num
      with (x n * x n + y n * y n + z n * z n) in Hn.
    rewrite Hj, Hn. lra.
Qed.

(** After the response the relative velocity along the normal is the
    closing velocity reversed and scaled by the restitution 0.5 (centres
    that do not coincide, both masses > 0). *)
Theorem restitution_reverses_half_closing_velocity (A B : Mesh R)
    (ca cb : SphereCollider R) (ba bb : SimplePhysicsBody R) :
  length (centerDelta A B ca cb) <> 0 ->
  0 < mass ba -> 0 < mass bb ->
  relAlongNormal (normalOf A B ca cb) ba bb <= 0 ->
  relAlongNormal (normalOf A B ca cb)
    (fst (resolveVelocity (normalOf A B ca cb) ba bb))
    (snd (resolveVelocity (normalOf A B ca cb) ba bb))
  = - (1 / 2) * relAlongNormal (normalOf A B ca cb) ba bb.
Proof.
  intros Hd. apply restitution_along_unit_normal.
  apply length_unit_dot, exact_unit_normal, Hd.
Qed.

Lemma scaled_delta_after_correction (A B : Mesh R) (pa pb : Physics R)
    (ca cb : SphereCollider R) :
  overlapping A B ca cb = true ->
  length (centerDelta A B ca cb) <> 0 ->
  centerDelta (fst (collidePair A B pa pb ca cb))
              (snd (collidePair A B pa pb ca cb)) ca cb
  = mulScalar (centerDelta A B ca cb)
      (1 + penetrationOf A B ca cb / length (centerDelta A B ca cb)).
Proof.
  intros Hov Hd.
  unfold centerDelta at 1.
  destruct (collidePair_positions A B pa pb ca cb Hov) as [-> ->].
  unfold correctionOf, contactCorrection, normalOf, contactNormal.
  rewrite exact_nudged, exact_orElse by exact Hd.
  set (d := length (centerDelta A B ca cb)) in *.
  set (pen := penetrationOf A B ca cb).
  apply vec_eq; unfold centerDelta; simpl; field; exact Hd.
Qed.

(** The positional correction resolves the overlap of the pair: after it
    the centres are exactly the sum of the radii apart, so the same pair
    no longer overlaps. *)
Theorem correction_resolves_overlap (A B : Mesh R) (pa pb : Physics R)
    (ca cb : SphereCollider R) :
  overlapping A B ca cb = true ->
  length (centerDelta A B ca cb) <> 0 ->
  length (centerDelta (fst (collidePair A B pa pb ca cb))
                      (snd (collidePair A B pa pb ca cb)) ca cb)
    = radius ca + radius cb /\
  overlapping (fst (collidePair A B pa pb ca cb))
              (snd (collidePair A B pa pb ca cb)) ca cb = false.
Proof.
  intros Hov Hd.
  assert (Hlen : length (centerDelta (fst (collidePair A B pa pb ca cb))
                           (snd (collidePair A B pa pb ca cb)) ca cb)
                 = radius ca + radius cb).
  { rewrite (scaled_delta_after_correction A B pa pb ca cb Hov Hd).
    pose proof (length_nonneg (centerDelta A B ca cb)) as Hpos.
    apply exact_nlt in Hov. unfold overlapping in Hov.
    unfold penetrationOf.
    set (d := length (centerDelta A B ca cb)) in *.
    change (radius ca + radius cb - d)%num with (radius ca + radius cb - d).
    change (radius ca + radius cb)%num with (radius ca + radius cb) in *.
    rewrite length_mulScalar; fold d.
    - field. exact Hd.
    - assert (0 < (radius ca + radius cb - d) / d)
        by (apply Rdiv_lt_0_compat; lra).
      lra. }
  split; [exact Hlen|].
  unfold overlapping. rewrite Hlen. apply exact_nlt_false.
  apply Rle_refl.
Qed.

(** Without rounding [normalize] returns a vector of length 1 for every
    vector that is not the zero vector, and normalizing twice is
    normalizing once. *)
Theorem normalize_unit_length (v : VecLike R) :
  length v <> 0 ->
  length (Vec3_normalize v) = 1 /\
  Vec3_normalize (Vec3_normalize v) = Vec3_normalize v.
Proof.
  intros Hv. pose proof (length_nonneg v) as Hpos.
  assert (Hnorm : Vec3_normalize v = mulScalar v (1 / length v)).
  { unfold Vec3_normalize. cbv zeta. fold (length v).
    rewrite (proj2 (exact_nlt 0 (length v))) by lra.
    apply vec_eq; simpl; field; exact Hv. }
  assert (Hunit : length (Vec3_normalize v) = 1).
  { rewrite Hnorm, length_mulScalar.
    - field. exact Hv.
    - apply Rlt_le, Rdiv_lt_0_compat; lra. }
  split; [exact Hunit|].
  set (u := Vec3_normalize v) in *.
  unfold Vec3_normalize at 1. cbv zeta. fold (length u). rewrite Hunit.
  destruct (nlt n0 1) eqn:Hone;
    [|apply exact_nlt_false in Hone; change (1 <= 0) in Hone; lra].
  apply vec_eq; simpl; field.
Qed.

(** Without rounding the cross product is orthogonal to both its
    operands and changes sign when they are swapped. *)
Theorem cross_orthogonal (u v : VecLike R) :
  dot (Vec3_cross u v) u = 0 /\ dot (Vec3_cross u v) v = 0 /\
  Vec3_cross v u = mulScalar (Vec3_cross u v) (-1).
Proof.
  split; [|split].
  - unfold dot, Vec3_cross. simpl. ring.
  - unfold dot, Vec3_cross. simpl. ring.
  - apply vec_eq; simpl; ring.
Qed.

End MoreExact.

Section OrderExact.
Local Open Scope R_scope.

Lemma body_eq (b c : SimplePhysicsBody R) :
  velocity b = velocity c -> mass b = mass c ->
  accumulatedForce b = accumulatedForce c -> b = c.
Proof. destruct b, c; simpl; intros -> -> ->; reflexivity. Qed.

Lemma centerDelta_swap (A B : Mesh R) (ca cb : SphereCollider R) :
  centerDelta B A cb ca = mulScalar (centerDelta A B ca cb) (-1).
Proof. apply vec_eq; simpl; ring. Qed.

Lemma length_opposite (v : VecLike R) : length (mulScalar v (-1)) = length v.
Proof.
  unfold length, mulScalar. simpl. f_equal. ring.
Qed.

Lemma relAlongNormal_swap (n : VecLike R) (ba bb : SimplePhysicsBody R) :
  relAlongNormal (mulScalar n (-1)) bb ba = relAlongNormal n ba bb.
Proof. unfold relAlongNormal. simpl. ring. Qed.

Lemma resolveVelocity_swap (n : VecLike R) (ba bb : SimplePhysicsBody R) :
  resolveVelocity (mulScalar n (-1)) bb ba =
  (snd (resolveVelocity n ba bb), fst (resolveVelocity n ba bb)).
Proof.
  unfold resolveVelocity. rewrite relAlongNormal_swap.
  destruct (nlt n0 (relAlongNormal n ba bb)); [reflexivity|].
  cbv zeta. cbn [fst snd].
  set (ran := relAlongNormal n ba bb).
  f_equal; apply body_eq; try reflexivity;
    apply vec_eq; simpl; unfold Rdiv;
    rewrite (Rplus_comm (invMass bb) (invMass ba)); ring.
Qed.

(** Without rounding, and unless the centres coincide, the outcome for a
    pair does not depend on which of the two meshes comes first in the
    list. *)
Theorem collidePair_order_independent (A B : Mesh R) (pa pb : Physics R)
    (ca cb : SphereCollider R) :
  length (centerDelta A B ca cb) <> 0 ->
  collidePair B A pb pa cb ca =
  (snd (collidePair A B pa pb ca cb), fst (collidePair A B pa pb ca cb)).
Proof.
  intros Hd.
  assert (Hlen : length (centerDelta B A cb ca)
                 = length (centerDelta A B ca cb))
    by (rewrite centerDelta_swap; apply length_opposite).
  unfold collidePair. rewrite Hlen.
  change (radius cb + radius ca)%num with (radius cb + radius ca).
  change (radius ca + radius cb)%num with (radius ca + radius cb).
  rewrite (Rplus_comm (radius cb) (radius ca)).
  set (d := length (centerDelta A B ca cb)) in *.
  destruct (nlt d (radius ca + radius cb)); [|reflexivity].
  cbv zeta. rewrite !exact_nudged by exact Hd.
  assert (Hn : contactNormal (centerDelta B A cb ca) d
               = mulScalar (contactNormal (centerDelta A B ca cb) d) (-1)).
  { rewrite centerDelta_swap. apply vec_eq; simpl; ring. }
  rewrite Hn.
  set (n := contactNormal (centerDelta A B ca cb) d).
  match goal with
  | |- context [contactCorrection n ?p] => set (pen := p)
  end.
  assert (HpB : add (position B)
                  (mulScalar (contactCorrection (mulScalar n (-1))
                                pen) (- n1)%num)
                = add (position B)
                      (contactCorrection n pen))
    by (apply vec_eq; simpl; ring).
  assert (HpA : add (position A)
                  (contactCorrection (mulScalar n (-1))
                                pen)
                = add (position A)
                      (mulScalar (contactCorrection n
                                pen) (- n1)%num))
    by (apply vec_eq; simpl; ring).
  rewrite HpB, HpA.
  destruct (body pa) as [ba|], (body pb) as [bb|]; try reflexivity.
  rewrite resolveVelocity_swap.
  now destruct (resolveVelocity n ba bb).
Qed.

End OrderExact.

(** ** The scene's mesh list *)

Section SceneFacts.
Context {M : Type} `{EqDecision M}.

Lemma indexOfFrom_absent (i : nat) (meshes : list M) (mesh : M) :
  mesh ∉ meshes -> indexOfFrom i meshes mesh = (-1)%Z.
Proof.
  revert i. induction meshes as [|m rest IH]; intros i Hnot; simpl.
  - reflexivity.
  - apply not_elem_of_cons in Hnot as [Hne Hrest].
    destruct (decide (m = mesh)) as [->|_]; [congruence|]. now apply IH.
Qed.

Lemma indexOfFrom_first (i : nat) (before after : list M) (mesh : M) :
  mesh ∉ before ->
  indexOfFrom i (before ++ mesh :: after) mesh
  = Z.of_nat (i + List.length before).
Proof.
  revert i. induction before as [|m rest IH]; intros i Hnot; simpl.
  - destruct (decide (mesh = mesh)); [|congruence]. f_equal. lia.
  - apply not_elem_of_cons in Hnot as [Hne Hrest].
    destruct (decide (m = mesh)) as [->|_]; [congruence|].
    rewrite IH by exact Hrest. f_equal. lia.
Qed.

(** Removing a mesh that is not in the scene changes nothing. *)
Theorem Scene_remove_absent (meshes : list M) (mesh : M) :
  mesh ∉ meshes -> Scene_remove meshes mesh = meshes.
Proof.
  intros Hnot. unfold Scene_remove, indexOf.
  now rewrite (indexOfFrom_absent 0 meshes mesh Hnot).
Qed.

Lemma delete_after_prefix (before after : list M) (mesh : M) :
  delete (List.length before) (before ++ mesh :: after) = before ++ after.
Proof.
  induction before as [|m rest IH]; simpl; [reflexivity|]. now f_equal.
Qed.

(** [remove] takes out the first occurrence of the mesh and nothing else:
    a mesh that was added twice is still in the scene after one
    [remove]. *)
Theorem Scene_remove_first (before after : list M) (mesh : M) :
  mesh ∉ before ->
  Scene_remove (before ++ mesh :: after) mesh = before ++ after.
Proof.
  intros Hnot. unfold Scene_remove, indexOf.
  rewrite (indexOfFrom_first 0 before after mesh Hnot). simpl.
  replace (-1 <? Z.of_nat (List.length before))%Z with true
    by (symmetry; apply Z.ltb_lt; lia).
  rewrite Nat2Z.id. apply delete_after_prefix.
Qed.

(** Adding a mesh that is not yet in the scene and removing it again gives
    the scene back. *)
Theorem Scene_add_then_remove (meshes : list M) (mesh : M) :
  mesh ∉ meshes -> Scene_remove (Scene_add meshes mesh) mesh = meshes.
Proof.
  intros Hnot. unfold Scene_add, Scene_remove, indexOf.
  rewrite (indexOfFrom_first 0 meshes [] mesh Hnot). simpl.
  replace (-1 <? Z.of_nat (List.length meshes))%Z with true
    by (symmetry; apply Z.ltb_lt; lia).
  rewrite Nat2Z.id, delete_after_prefix. apply app_nil_r.
Qed.

End SceneFacts.

(** ** Generated geometry *)

Section GeometryFacts.
Variables (Math_sin Math_cos : float -> float) (Math_PI : float).

Lemma length_grid {A : Type} (rows cols c : nat)
    (turn : nat -> nat -> list A) :
  (forall i j, List.length (turn i j) = c) ->
  List.length (grid rows cols turn) = (rows * cols * c)%nat.
Proof.
  intros Hturn. unfold grid.
  assert (Hrow : forall i l,
    List.length (flat_map (fun j => turn i j) l) = (List.length l * c)%nat).
  { intros i l. induction l as [|j l IH]; simpl; [reflexivity|].
    rewrite length_app, Hturn, IH. lia. }
  assert (Hall : forall l,
    List.length
      (flat_map (fun i => flat_map (fun j => turn i j) (seq 0 cols)) l)
    = (List.length l * cols * c)%nat).
  { intros l. induction l as [|i l IH]; simpl; [reflexivity|].
    rewrite length_app, Hrow, length_seq, IH. lia. }
  now rewrite Hall, length_seq.
Qed.

Lemma in_grid {A : Type} (rows cols : nat) (turn : nat -> nat -> list A)
    (a : A) :
  In a (grid rows cols turn) <->
  exists i j, (i < rows)%nat /\ (j < cols)%nat /\ In a (turn i j).
Proof.
  unfold grid. rewrite in_flat_map. split.
  - intros (i & Hi & Ha). apply in_flat_map in Ha as (j & Hj & Ha).
    apply in_seq in Hi, Hj. exists i, j. repeat split; [lia|lia|exact Ha].
  - intros (i & j & Hi & Hj & Ha). exists i. split; [apply in_seq; lia|].
    apply in_flat_map. exists j. split; [apply in_seq; lia|exact Ha].
Qed.

(** How much [sphere] and [torus] generate: (segments + 1)^2 vertices with
    three coordinates, a normal and a colour each, and segments^2 cells of
    two triangles. *)
Theorem generated_sizes (r r' : float) (segments : nat)
    (color : list float) :
  let n := ((segments + 1) * (segments + 1))%nat in
  let sizes (g : Geometry) :=
    List.length (vertices g) = (3 * n)%nat /\
    List.length (normals g) = (3 * n)%nat /\
    List.length (colors g) = (n * List.length color)%nat /\
    List.length (indices g) = (6 * (segments * segments))%nat in
  sizes (sphere Math_sin Math_cos Math_PI r segments color) /\
  sizes (torus Math_sin Math_cos Math_PI r r' segments color).
Proof.
  cbv zeta. unfold sphere, torus. cbn [vertices normals colors indices].
  replace (S segments) with (segments + 1)%nat by lia.
  repeat split;
    first [ rewrite (length_grid _ _ 3) by reflexivity
          | rewrite (length_grid _ _ 6) by reflexivity
          | rewrite (length_grid _ _ (List.length color)) by reflexivity ];
    lia.
Qed.

Lemma cell_indices_bound (segments k : nat) :
  In k (grid segments segments (fun lat lon =>
         let first := (lat * (segments + 1) + lon)%nat in
         let second := (first + segments + 1)%nat in
         [first; second; (first + 1)%nat;
          second; (second + 1)%nat; (first + 1)%nat])) ->
  (k < (segments + 1) * (segments + 1))%nat.
Proof.
  intros (lat & lon & Hlat & Hlon & Hk)%in_grid. cbv zeta in Hk.
  assert (lat * (segments + 1) + lon + segments + 1 + 1
          < (segments + 1) * (segments + 1))%nat by nia.
  simpl in Hk. intuition lia.
Qed.

(** Every index [sphere] and [torus] generate refers to a generated
    vertex: its three coordinates lie inside [vertices]. *)
Theorem generated_indices_in_range (r r' : float) (segments : nat)
    (color : list float) (k : nat) :
  (In k (indices (sphere Math_sin Math_cos Math_PI r segments color)) ->
   (3 * k + 2 <
    List.length
      (vertices (sphere Math_sin Math_cos Math_PI r segments color)))%nat) /\
  (In k (indices (torus Math_sin Math_cos Math_PI r r' segments color)) ->
   (3 * k + 2 <
    List.length
      (vertices (torus Math_sin Math_cos Math_PI r r' segments color)))%nat).
Proof.
  unfold sphere, torus. cbn [vertices indices].
  rewrite !(length_grid _ _ 3) by reflexivity.
  split; intros Hk%cell_indices_bound; lia.
Qed.

Lemma last_cell_index (segments : nat) :
  (1 <= segments)%nat ->
  In ((segments + 1) * (segments + 1) - 1)%nat
     (grid segments segments (fun lat lon =>
         let first := (lat * (segments + 1) + lon)%nat in
         let second := (first + segments + 1)%nat in
         [first; second; (first + 1)%nat;
          second; (second + 1)%nat; (first + 1)%nat])).
Proof.
  intros Hs. apply in_grid.
  exists (segments - 1)%nat, (segments - 1)%nat.
  split; [lia|]. split; [lia|]. cbv zeta.
  do 4 right. left. nia.
Qed.

(** [Mesh.initBuffers] stores the indices in a [Uint16Array]: the indices
    [sphere] and [torus] generate all fit in 16 bits exactly when
    segments <= 255. *)
Theorem generated_indices_fit_uint16 (r r' : float) (segments : nat)
    (color : list float) :
  ((forall k,
      In k (indices (sphere Math_sin Math_cos Math_PI r segments color)) ->
      (Z.of_nat k < 65536)%Z) <-> (segments <= 255)%nat) /\
  ((forall k,
      In k (indices (torus Math_sin Math_cos Math_PI r r' segments color)) ->
      (Z.of_nat k < 65536)%Z) <-> (segments <= 255)%nat).
Proof.
  assert (Hfit :
    (forall k,
      In k (grid segments segments (fun lat lon =>
         let first := (lat * (segments + 1) + lon)%nat in
         let second := (first + segments + 1)%nat in
         [first; second; (first + 1)%nat;
          second; (second + 1)%nat; (first + 1)%nat])) ->
      (Z.of_nat k < 65536)%Z) <-> (segments <= 255)%nat).
  { split.
    - intros Hall. destruct (Nat.le_gt_cases segments 255) as [|Hbig];
        [assumption|].
      specialize (Hall _ (last_cell_index segments ltac:(lia))). nia.
    - intros Hs k Hk%cell_indices_bound. nia. }
  split; exact Hfit.
Qed.

End GeometryFacts.

(** ** Further instances *)

Lemma exact_scenario_closing :
  (relAlongNormal
     (normalOf exactA exactB (newCollider 1%R) (newCollider 1%R))
     (withVelocity (newBody 2) (mkVec 1 0 0))
     (withVelocity (newBody 5) (mkVec 0 0 0)) <= 0)%R.
Proof.
  unfold normalOf, contactNormal. cbv zeta. rewrite exact_scenario_distance.
  rewrite exact_nudged, exact_orElse by lra.
  unfold relAlongNormal, centerDelta, exactA, exactB,
    sphereMesh, attachPhysics. simpl.
  replace ((0 - 1) * ((3 / 2 + 0 - (0 + 0)) * (1 / (3 / 2)))
           + (0 - 0) * ((0 + 0 - (0 + 0)) * (1 / (3 / 2)))
           + (0 - 0) * ((0 + 0 - (0 + 0)) * (1 / (3 / 2))))%R
    with (-1)%R by field.
  lra.
Qed.

Lemma exact_345_length : length (mkVec 3 0 4)%R <> 0%R.
Proof.
  unfold length. simpl.
  replace (3 * 3 + 0 * 0 + 4 * 4)%R with (5 * 5)%R by ring.
  rewrite sqrt_square; lra.
Qed.

Section MoreInstances.
Local Open Scope float_scope.

Lemma stepPhysics_nonpositive_dt_witness :
  (-1 <=? 0) = true /\
  stepPhysics [scenarioA; scenarioB origin] (-1) =
  collisionPhase [scenarioA; scenarioB origin].
Proof.
  split; [reflexivity|].
  apply (stepPhysics_nonpositive_dt (F := float)). reflexivity.
Defined.

Lemma single_collider_never_collides_witness :
  collisionPhase [scenarioA; mkMesh origin None] =
    [scenarioA; mkMesh origin None] /\
  stepPhysics [scenarioA; mkMesh origin None] 0.5 =
    integrateMesh 0.5 <$> [scenarioA; mkMesh origin None].
Proof.
  apply (single_collider_never_collides (F := float) _ 0%nat).
  intros [|[|i]] m Hi Hne; [congruence| |discriminate Hi].
  injection Hi as <-. reflexivity.
Defined.

Lemma stepPhysics_without_collider_witness :
  let free := attachPhysics (mkMesh (mkVec 1 0 0) None)
                (withVelocity (newBody 1) (mkVec 0 2 0)) None in
  stepPhysics [scenarioA; free; scenarioB origin] 0.5 !! 1%nat =
  Some (integrateMesh 0.5 free).
Proof.
  cbv zeta.
  apply (stepPhysics_without_collider (F := float)); reflexivity.
Defined.

Lemma static_obstacle_only_corrects_witness :
  let wall := mkMesh (mkVec 1.5 0 0)
                (Some (mkPhysics None (Some unitCollider))) in
  overlapping scenarioA wall unitCollider unitCollider = true /\
  collidePair scenarioA wall (spherePhysics origin 1 1)
    (mkPhysics None (Some unitCollider)) unitCollider unitCollider =
  ({| position := add (position scenarioA)
        (mulScalar (correctionOf scenarioA wall unitCollider unitCollider)
                   (PrimFloat.opp 1));
      physics := Some (spherePhysics origin 1 1) |},
   {| position := add (position wall)
        (correctionOf scenarioA wall unitCollider unitCollider);
      physics := Some (mkPhysics None (Some unitCollider)) |}).
Proof.
  cbv zeta. split; [reflexivity|].
  exact (static_obstacle_only_corrects (F := float) scenarioA
           (mkMesh (mkVec 1.5 0 0) (Some (mkPhysics None (Some unitCollider))))
           (spherePhysics origin 1 1) (mkPhysics None (Some unitCollider))
           unitCollider unitCollider (or_intror eq_refl) eq_refl).
Defined.

Lemma massless_body_integrates_to_non_finite_witness :
  (mass (applyForce (newBody 0) (mkVec 1 0 0)) =? 0) = true /\
  (0 <? 0.5) = true /\
  noFiniteComponent
    (velocity (fst (integrate (applyForce (newBody 0) (mkVec 1 0 0))
                              origin 0.5))) = true.
Proof.
  split; [reflexivity|]. split; [reflexivity|].
  apply massless_body_integrates_to_non_finite; reflexivity.
Defined.

Lemma unforced_body_keeps_velocity_witness :
  (0 <? 2) = true /\ (0 <? 0.5) = true /\ is_finite 0.5 = true /\
  sameVec
    (velocity (fst (integrate (withVelocity (newBody 2) (mkVec 1 2 3))
                              origin 0.5)))
    (mkVec 1 2 3) = true.
Proof.
  repeat (split; [reflexivity|]).
  apply (unforced_body_keeps_velocity
           (withVelocity (newBody 2) (mkVec 1 2 3)) origin 0.5);
    reflexivity.
Defined.

Lemma immovable_body_keeps_velocity_witness :
  let wall := newBody 0 in
  let ball := withVelocity (newBody 1) (mkVec (-1) 0 0) in
  (0 <? relAlongNormal (mkVec 1 0 0) wall ball) = false /\
  finiteVec (impulseOf (mkVec 1 0 0) wall ball) = true /\
  (mass wall <=? 0) = true /\
  sameVec (velocity (fst (resolveVelocity (mkVec 1 0 0) wall ball)))
          (velocity wall) = true.
Proof.
  cbv zeta. repeat (split; [reflexivity|]).
  apply (immovable_body_keeps_velocity (mkVec 1 0 0) (newBody 0)
           (withVelocity (newBody 1) (mkVec (-1) 0 0)));
    reflexivity.
Defined.

Lemma normalize_degenerate_witness :
  is_nan nan || is_nan 1 || is_nan 2 = true /\
  Vec3_normalize (mkVec nan 1 2) = zeroVec.
Proof.
  split; [reflexivity|].
  apply normalize_degenerate. left. reflexivity.
Defined.

Lemma cross_self_witness :
  is_finite (2 * 3) = true /\ Vec3_cross (mkVec 1 2 3) (mkVec 1 2 3) = zeroVec.
Proof.
  split; [reflexivity|].
  apply (cross_self (mkVec 1 2 3)); reflexivity.
Defined.

Lemma nan_dt_is_integrated_witness :
  is_nan nan = true /\
  integrate (newBody 1) origin nan =
  (mkBody nanVec (mass (newBody 1)) zeroVec, nanVec).
Proof.
  split; [reflexivity|].
  apply nan_dt_is_integrated. reflexivity.
Defined.

Lemma nan_position_never_collides_witness :
  let lost := sphereMesh (mkVec nan 0 0) origin 1 1 in
  collidePair lost scenarioA (spherePhysics origin 1 1)
    (spherePhysics origin 1 1) unitCollider unitCollider = (lost, scenarioA).
Proof.
  cbv zeta. apply nan_position_never_collides. left. reflexivity.
Defined.

Lemma generated_indices_in_range_witness :
  let g := sphere (fun a => a) (fun a => a) 3 1 1 [1%float] in
  In 3%nat (indices g) /\
  (3 * 3 + 2 < List.length (vertices g))%nat.
Proof.
  cbv zeta.
  assert (Hin : In 3%nat
            (indices (sphere (fun a => a) (fun a => a) 3 1 1 [1%float])))
    by (simpl; tauto).
  split; [exact Hin|].
  exact (proj1 (generated_indices_in_range (fun a => a) (fun a => a)
                  3%float 1%float 1%float 1%nat [1%float] 3%nat) Hin).
Defined.

Lemma Scene_remove_absent_witness :
  Scene_remove [1; 2]%nat 3%nat = [1; 2]%nat.
Proof.
  apply Scene_remove_absent.
  apply (bool_decide_unpack _). reflexivity.
Defined.

Lemma Scene_remove_first_witness :
  Scene_remove ([1] ++ 2 :: [3; 2])%nat 2%nat = ([1] ++ [3; 2])%nat.
Proof.
  apply Scene_remove_first.
  apply (bool_decide_unpack _). reflexivity.
Defined.

Lemma Scene_add_then_remove_witness :
  Scene_remove (Scene_add [1; 2]%nat 3%nat) 3%nat = [1; 2]%nat.
Proof.
  apply Scene_add_then_remove.
  apply (bool_decide_unpack _). reflexivity.
Defined.

End MoreInstances.

Section MoreExactInstances.
Local Open Scope R_scope.

Lemma restitution_reverses_half_closing_velocity_witness :
  let n := normalOf exactA exactB (newCollider 1) (newCollider 1) in
  let ba := withVelocity (newBody 2) (mkVec 1 0 0) in
  let bb := withVelocity (newBody 5) (mkVec 0 0 0) in
  relAlongNormal n (fst (resolveVelocity n ba bb))
                   (snd (resolveVelocity n ba bb))
  = - (1 / 2) * relAlongNormal n ba bb.
Proof.
  cbv zeta.
  apply (restitution_reverses_half_closing_velocity exactA exactB
           (newCollider 1) (newCollider 1)
           (withVelocity (newBody 2) (mkVec 1 0 0))
           (withVelocity (newBody 5) (mkVec 0 0 0))
           exact_scenario_apart_centres).
  - simpl. lra.
  - simpl. lra.
  - exact exact_scenario_closing.
Defined.

Lemma correction_resolves_overlap_witness :
  let pa := spherePhysics (mkVec 1 0 0) 2 1 in
  let pb := spherePhysics (mkVec 0 0 0) 5 1 in
  overlapping
    (fst (collidePair exactA exactB pa pb (newCollider 1) (newCollider 1)))
    (snd (collidePair exactA exactB pa pb (newCollider 1) (newCollider 1)))
    (newCollider 1) (newCollider 1) = false.
Proof.
  cbv zeta.
  exact (proj2 (correction_resolves_overlap exactA exactB
                  (spherePhysics (mkVec 1 0 0) 2 1)
                  (spherePhysics (mkVec 0 0 0) 5 1)
                  (newCollider 1) (newCollider 1)
                  exact_scenario_overlapping exact_scenario_apart_centres)).
Defined.

Lemma normalize_unit_length_witness :
  length (Vec3_normalize (mkVec 3 0 4)) = 1.
Proof.
  exact (proj1 (normalize_unit_length (mkVec 3 0 4) exact_345_length)).
Defined.

Lemma collidePair_order_independent_witness :
  let pa := spherePhysics (mkVec 1 0 0) 2 1 in
  let pb := spherePhysics (mkVec 0 0 0) 5 1 in
  collidePair exactB exactA pb pa (newCollider 1) (newCollider 1) =
  (snd (collidePair exactA exactB pa pb (newCollider 1) (newCollider 1)),
   fst (collidePair exactA exactB pa pb (newCollider 1) (newCollider 1))).
Proof.
  cbv zeta.
  exact (collidePair_order_independent exactA exactB
           (spherePhysics (mkVec 1 0 0) 2 1)
           (spherePhysics (mkVec 0 0 0) 5 1)
           (newCollider 1) (newCollider 1) exact_scenario_apart_centres).
Defined.

End MoreExactInstances.

(** ** What a step writes, on shared objects *)

Section InPlaceFrame.
Context {F : Type} `{Number F}.
Local Open Scope num_scope.







(** *** The primitive writes *)






(** *** The collision phase writes no existing vector object *)





(** *** The integration phase writes the integrated objects only *)










End InPlaceFrame.

Section InPlaceOnBinary64.
Local Open Scope float_scope.



(** With every object its own, the step on the heap gives the values the
    by-value model gives for the second scenario. *)
Lemma scenarioHeap_as_by_value :
  let h' := InPlace.stepPhysics scenarioHeap [0%nat; 1%nat] 0 in
  snapshot h' 0%nat
  = stepPhysics [scenarioA; scenarioB (mkVec (-1) 0 0)] 0 !! 0%nat /\
  snapshot h' 1%nat
  = stepPhysics [scenarioA; scenarioB (mkVec (-1) 0 0)] 0 !! 1%nat.
Proof. vm_compute. split; reflexivity. Qed.

End InPlaceOnBinary64.

(** ** A mesh that shares no object, on the heap *)

Section InPlaceUnshared.
Context {F : Type} `{Number F}.
Local Open Scope num_scope.

(** *** Reading after writing *)




(** *** What [kept] gives *)

Lemma kept_bodyOf (m : InPlace.ref) (h h' : InPlace.Heap F) :
  kept m h h' -> InPlace.bodyOf h' m = InPlace.bodyOf h m.
Proof. intros (Hm & _). unfold InPlace.bodyOf. now rewrite Hm. Qed.

Lemma kept_colliderOf (m : InPlace.ref) (h h' : InPlace.Heap F) :
  kept m h h' -> InPlace.colliderOf h' m = InPlace.colliderOf h m.
Proof.
  intros (Hm & _ & Hc & _). unfold InPlace.colliderOf. now rewrite Hm, Hc.
Qed.

Lemma kept_body_lookup (m : InPlace.ref) (h h' : InPlace.Heap F)
    (o : InPlace.Mesh) (p : InPlace.Physics) :
  kept m h h' -> InPlace.meshObjects h !! m = Some o ->
  InPlace.physics o = Some p ->
  InPlace.body p ≫= (InPlace.bodies h' !!.)
  = InPlace.body p ≫= (InPlace.bodies h !!.).
Proof.
  intros (_ & Hb & _) Ho Hp.
  destruct (InPlace.body p) as [b|] eqn:Ebody; [|reflexivity]. simpl.
  apply Hb. unfold InPlace.bodyOf. rewrite Ho. simpl. rewrite Hp. exact Ebody.
Qed.

Lemma kept_footprint (m : InPlace.ref) (h h' : InPlace.Heap F) :
  kept m h h' -> InPlace.footprint h' m = InPlace.footprint h m.
Proof.
  intros Hk. pose proof Hk as (Hm & Hb & Hc & _).
  unfold InPlace.footprint. rewrite Hm, Hc.
  destruct (InPlace.meshObjects h !! m) as [o|] eqn:Ho; [|reflexivity].
  destruct (InPlace.physics o) as [p|] eqn:Hp; [|reflexivity].
  now rewrite (kept_body_lookup m h h' o p Hk Ho Hp).
Qed.




Lemma kept_trans (m : InPlace.ref) (h1 h2 h3 : InPlace.Heap F) :
  kept m h1 h2 -> kept m h2 h3 -> kept m h1 h3.
Proof.
  intros H12 H23.
  pose proof (kept_footprint m h1 h2 H12) as Hfp.
  pose proof (kept_bodyOf m h1 h2 H12) as Hbo.
  destruct H12 as (Hm1 & Hb1 & Hc1 & Hv1).
  destruct H23 as (Hm2 & Hb2 & Hc2 & Hv2).
  repeat split.
  - congruence.
  - intros b Hb. rewrite Hb2, Hb1; [reflexivity|exact Hb|].
    now rewrite Hbo.
  - congruence.
  - rewrite Hfp in Hv2. rewrite Forall_forall in Hv1, Hv2.
    apply Forall_forall. intros r Hr.
    destruct (Hv1 r Hr) as [Hlt E1]. destruct (Hv2 r Hr) as [_ E2].
    split; [exact Hlt|congruence].
Qed.

(** *** Writes that leave a mesh alone *)







(** *** The integration of another mesh *)




(** *** The collision phase, for a mesh without a collider *)





Section CollisionPhase.
Variables (m : InPlace.ref) (meshes : list InPlace.ref)
          (h0 : InPlace.Heap F).
Hypothesis no_collider : InPlace.colliderOf h0 m = None.
Hypothesis other_bodies :
  forall m' b, m' ∈ meshes -> InPlace.colliderOf h0 m' <> None ->
               InPlace.bodyOf h0 m' = Some b -> InPlace.bodyOf h0 m <> Some b.



End CollisionPhase.

(** *** The integration of the mesh itself *)

















(** *** Well-formed heaps *)






(** *** The step, for a mesh that shares no object *)


End InPlaceUnshared.

Section InPlaceUnsharedOnBinary64.
Local Open Scope float_scope.


(** The same mesh listed twice shares everything with its other entry:
    it is integrated twice, and ends at (9,0,0) where one integration
    puts it at (7,0,0). *)
Lemma mesh_listed_twice_is_integrated_twice :
  position <$> snapshot (InPlace.stepPhysics unsharedScene
                           [2%nat; 2%nat] 1) 2%nat
  = Some (mkVec 9 0 0) /\
  position <$> (integrateMesh 1 <$> snapshot unsharedScene 2%nat)
  = Some (mkVec 7 0 0).
Proof. vm_compute. split; reflexivity. Qed.

Lemma unsharedScene_step :
  snapshot (InPlace.stepPhysics unsharedScene
              [0%nat; 2%nat; 1%nat; 0%nat] 1) 2%nat
  = Some (mkMesh (mkVec 7 0 0)
            (Some (mkPhysics (Some (mkBody (mkVec 2 0 0) 2 (mkVec 0 0 0)))
                             None))).
Proof. vm_compute. reflexivity. Qed.

End InPlaceUnsharedOnBinary64.
